(** * flux_dev_script.py: path resolver and result extraction

    A shallow embedding of the helper functions of [flux_dev_script.py]:
    [get_value_at_index], [find_path], [add_comfyui_directory_to_sys_path]
    and [add_extra_model_paths].

    - Python text is [string]; the [os.path] functions the script calls
      ([dirname], [join]) follow CPython's [posixpath].
    - Python values are an inductive type with the built-in sequences and
      the dictionary; subscription [obj[k]] follows the built-in types.
    - Effects are explicit: a function is a state transformer on a [world]
      (directory listings, working directory, [sys.path], the log of
      performed operations) that returns a value or raises an exception.
    - The interpreter's recursion limit is not part of the model. *)

From Equations Require Import Equations.
From Stdlib Require Import List Arith ZArith Lia Bool Ascii String.
Import ListNotations.

Local Open Scope string_scope.
Set Warnings "-register-all".

(* ===================================================================== *)
(** ** Python [str] primitives used by [posixpath] *)
(* ===================================================================== *)

Module PyStr.

(** The path separator of [posixpath]. *)
Definition sep : ascii := "/"%char.

Definition is_sep (c : ascii) : bool := Ascii.eqb c sep.

(** [s.rfind(c)]: the highest index at which [c] occurs, [-1] if none. *)
Fixpoint rfind (c : ascii) (s : string) : Z :=
  match s with
  | EmptyString => (-1)%Z
  | String a s' =>
      let r := rfind c s' in
      if (0 <=? r)%Z then (r + 1)%Z
      else if Ascii.eqb a c then 0%Z else (-1)%Z
  end.

(** [s[:i]] for a non-negative [i]. *)
Definition slice_to (i : Z) (s : string) : string :=
  substring 0 (Z.to_nat i) s.

(** [s.rstrip(c)]: drop the trailing run of [c]. *)
Fixpoint rstrip (c : ascii) (s : string) : string :=
  match s with
  | EmptyString => EmptyString
  | String a s' =>
      match rstrip c s' with
      | EmptyString => if Ascii.eqb a c then EmptyString else String a EmptyString
      | t => String a t
      end
  end.

(** [s == c * len(s)]: every character of [s] is [c]. *)
Fixpoint all_char (c : ascii) (s : string) : bool :=
  match s with
  | EmptyString => true
  | String a s' => Ascii.eqb a c && all_char c s'
  end.

(** [s.startswith(c)] and [s.endswith(c)] for a one-character [c]. *)
Definition startswith (c : ascii) (s : string) : bool :=
  match s with
  | EmptyString => false
  | String a _ => Ascii.eqb a c
  end.

Fixpoint endswith (c : ascii) (s : string) : bool :=
  match s with
  | EmptyString => false
  | String a EmptyString => Ascii.eqb a c
  | String _ s' => endswith c s'
  end.

(** Truthiness of a [str]: non-empty. *)
Definition nonempty (s : string) : bool :=
  match s with EmptyString => false | _ => true end.

(** [c in s] for a one-character [c]. *)
Fixpoint contains (c : ascii) (s : string) : bool :=
  match s with
  | EmptyString => false
  | String a s' => Ascii.eqb a c || contains c s'
  end.

End PyStr.

(* ===================================================================== *)
(** ** [posixpath.dirname] and [posixpath.join] *)
(* ===================================================================== *)

Module PosixPath.
Import PyStr.

(** [[
    def dirname(p):
        i = p.rfind(sep) + 1
        head = p[:i]
        if head and head != sep*len(head):
            head = head.rstrip(sep)
        return head
    ]] *)
Definition dirname (p : string) : string :=
  let i := (rfind sep p + 1)%Z in
  let head := slice_to i p in
  if nonempty head && negb (all_char sep head)
  then rstrip sep head
  else head.

(** [[
    def join(a, b):
        path = a
        if b.startswith(sep):          path = b
        elif not path or path.endswith(sep):  path += b
        else:                          path += sep + b
        return path
    ]] *)
Definition join (a b : string) : string :=
  if startswith sep b then b
  else if negb (nonempty a) || endswith sep a then a ++ b
  else a ++ String sep b.

(** The [k]-th ancestor of a path: [k] applications of [dirname].  The root
    is its own parent, so the chain is constant once it reaches it. *)
Definition ancestor (k : nat) (p : string) : string :=
  Nat.iter k dirname p.

(** Number of path components: the maximal runs of characters other than
    the separator.  [comps_from inside s] counts them in [s], where
    [inside] tells whether the preceding character belongs to one. *)
Fixpoint comps_from (inside : bool) (s : string) : nat :=
  match s with
  | EmptyString => 0
  | String a s' =>
      if is_sep a then comps_from false s'
      else (if inside then 0 else 1) + comps_from true s'
  end.

(** Depth of a directory: the number of components of its path, which for
    an absolute path is the number of its ancestors up to the root. *)
Definition depth (p : string) : nat := comps_from false p.

(** One more step is needed for a path written with a trailing separator. *)
Definition trailing (p : string) : nat :=
  if endswith sep p then 1 else 0.

(** The part of a path up to and including its last separator. *)
Definition head (p : string) : string := slice_to (rfind sep p + 1) p.

(** Bound on the number of ascents from [p]: one per component, and one
    more to drop the separators written after the last component. *)
Definition ascents_bound (p : string) : nat :=
  depth p + (if endswith sep p && negb (all_char sep p) then 1 else 0).

End PosixPath.

(* ===================================================================== *)
(** ** The parent of a path is a prefix of it

    [find_path] recurses on [dirname path]; the facts below are what its
    definition needs to be accepted: unless it is the path itself, the
    parent is strictly shorter. *)
(* ===================================================================== *)

Module DirnameShorter.
Import PyStr PosixPath.

Definition is_prefix (a b : string) : Prop := exists t, b = a ++ t.

Lemma length_app (a b : string) :
  String.length (a ++ b) = String.length a + String.length b.
Proof. induction a as [|c a IH]; simpl; [reflexivity | now rewrite IH]. Qed.

Lemma app_empty_r (a : string) : a ++ "" = a.
Proof. induction a as [|c a IH]; simpl; [reflexivity | now rewrite IH]. Qed.

Lemma is_prefix_refl (a : string) : is_prefix a a.
Proof. exists "". now rewrite app_empty_r. Qed.

Lemma is_prefix_trans (a b c : string) :
  is_prefix a b -> is_prefix b c -> is_prefix a c.
Proof.
  intros [t ->] [u ->]. exists (t ++ u).
  induction a as [|x a IH]; simpl; [reflexivity | now rewrite IH].
Qed.

Lemma is_prefix_cons (x : ascii) (a b : string) :
  is_prefix a b -> is_prefix (String x a) (String x b).
Proof. intros [t ->]. now exists t. Qed.

Lemma is_prefix_empty (b : string) : is_prefix "" b.
Proof. now exists b. Qed.

Lemma is_prefix_length (a b : string) :
  is_prefix a b -> a = b \/ String.length a < String.length b.
Proof.
  intros [t ->]. destruct t as [|x t].
  - left. now rewrite app_empty_r.
  - right. rewrite length_app. simpl. lia.
Qed.

Lemma substring_prefix (n : nat) (s : string) : is_prefix (substring 0 n s) s.
Proof.
  revert n. induction s as [|x s IH]; intros [|n]; simpl;
    try apply is_prefix_empty.
  apply is_prefix_cons, IH.
Qed.

Lemma rstrip_prefix (c : ascii) (s : string) : is_prefix (rstrip c s) s.
Proof.
  induction s as [|x s IH]; simpl; [apply is_prefix_empty |].
  destruct (rstrip c s) as [|y t] eqn:E.
  - destruct (Ascii.eqb x c); [apply is_prefix_empty |].
    apply is_prefix_cons, is_prefix_empty.
  - now apply is_prefix_cons.
Qed.

Lemma dirname_prefix (p : string) : is_prefix (dirname p) p.
Proof.
  unfold dirname, slice_to.
  destruct (nonempty _ && negb _).
  - eapply is_prefix_trans; [apply rstrip_prefix | apply substring_prefix].
  - apply substring_prefix.
Qed.

(** Each ascent strictly shortens the path. *)
Lemma dirname_shorter (p : string) :
  dirname p <> p -> String.length (dirname p) < String.length p.
Proof.
  intros Hne. destruct (is_prefix_length _ _ (dirname_prefix p)); tauto.
Qed.

End DirnameShorter.

(* ===================================================================== *)
(** ** Python values, exceptions and the effect monad *)
(* ===================================================================== *)

Module Py.

(** Subscripts the script uses: an integer position or a text key. *)
Inductive key : Type :=
| KInt (i : Z)
| KStr (s : string).

Definition key_eqb (a b : key) : bool :=
  match a, b with
  | KInt i, KInt j => Z.eqb i j
  | KStr s, KStr t => String.eqb s t
  | _, _ => false
  end.

(** Values a node call may return.  A dictionary is the list of its items
    in insertion order; a lookup takes the first item with an equal key. *)
Inductive value : Type :=
| VNone
| VInt (i : Z)
| VStr (s : string)
| VList (items : list value)
| VTuple (items : list value)
| VDict (items : list (key * value))
| VObject (id : nat).

Inductive os_error : Type := ENOENT | ENOTDIR | EACCES.

Inductive exn : Type :=
| KeyError (k : key)
| IndexError
| TypeError
| OSError (errno : os_error) (filename : string)
| ImportError (module : string).

Definition is_KeyError (e : exn) : bool :=
  match e with KeyError _ => true | _ => false end.

Definition is_ImportError (e : exn) : bool :=
  match e with ImportError _ => true | _ => false end.

Inductive outcome (A : Type) : Type :=
| Ok (a : A)
| Raise (e : exn).
Arguments Ok {A} a.
Arguments Raise {A} e.

(** Operations a run performs, in the order they happen. *)
Inductive event : Type :=
| EvListdir (path : string)
| EvPrint (line : string)
| EvGetitem (obj : value) (k : key).

(** The environment of a run.  [w_listdir] is the directory tree as
    [os.listdir] shows it: the child list of a path or the error of
    listing it. *)
Record world : Type := mkWorld {
  w_listdir : string -> os_error + list string;
  w_isdir : string -> bool;
  w_getcwd : os_error + string;
  w_importable : list string -> string -> bool;
  w_sys_path : list string;
  w_log : list event
}.

Definition log (ev : event) (w : world) : world :=
  mkWorld (w_listdir w) (w_isdir w) (w_getcwd w) (w_importable w)
          (w_sys_path w) (w_log w ++ [ev]).

Definition M (A : Type) : Type := world -> outcome A * world.

Definition ret {A} (a : A) : M A := fun w => (Ok a, w).

Definition raise {A} (e : exn) : M A := fun w => (Raise e, w).

Definition bind {A B} (m : M A) (k : A -> M B) : M B :=
  fun w =>
    match m w with
    | (Ok a, w') => k a w'
    | (Raise e, w') => (Raise e, w')
    end.

(** [try: m  except <class>: handler] *)
Definition try_except {A} (m : M A) (catches : exn -> bool) (handler : M A)
  : M A :=
  fun w =>
    match m w with
    | (Ok a, w') => (Ok a, w')
    | (Raise e, w') => if catches e then handler w' else (Raise e, w')
    end.

Declare Scope py_scope.
Delimit Scope py_scope with py.
Notation "x <- m ;; k" := (bind m (fun x => k))
  (at level 61, m at next level, right associativity) : py_scope.
Notation "m ;; k" := (bind m (fun _ => k))
  (at level 61, right associativity) : py_scope.
Local Open Scope py_scope.

(** [os.listdir(path)] *)
Definition listdir (path : string) : M (list string) :=
  fun w =>
    match w_listdir w path with
    | inr entries => (Ok entries, log (EvListdir path) w)
    | inl err => (Raise (OSError err path), log (EvListdir path) w)
    end.

(** [os.getcwd()] *)
Definition getcwd : M string :=
  fun w =>
    match w_getcwd w with
    | inr p => (Ok p, w)
    | inl err => (Raise (OSError err ""), w)
    end.

(** [os.path.isdir(path)] *)
Definition isdir (path : string) : M bool :=
  fun w => (Ok (w_isdir w path), w).

(** [print(line)] *)
Definition print (line : string) : M unit :=
  fun w => (Ok tt, log (EvPrint line) w).

(** [sys.path.append(p)] *)
Definition sys_path_append (p : string) : M unit :=
  fun w =>
    (Ok tt, mkWorld (w_listdir w) (w_isdir w) (w_getcwd w) (w_importable w)
                    (w_sys_path w ++ [p]) (w_log w)).

(** [import module]: succeeds when the module is found along the current
    [sys.path]. *)
Definition import_module (module : string) : M unit :=
  fun w =>
    if w_importable w (w_sys_path w) module then (Ok tt, w)
    else (Raise (ImportError module), w).

(** [name in entries] on a list of [str]. *)
Definition str_in (name : string) (entries : list string) : bool :=
  existsb (String.eqb name) entries.

(** Positional access to a sequence of length [n]: a negative index counts
    from the end. *)
Definition seq_index {A} (l : list A) (i : Z) : option A :=
  let n := Z.of_nat (List.length l) in
  let j := if (i <? 0)%Z then (i + n)%Z else i in
  if (0 <=? j)%Z && (j <? n)%Z then nth_error l (Z.to_nat j) else None.

Fixpoint dict_get (items : list (key * value)) (k : key) : option value :=
  match items with
  | [] => None
  | (k', v) :: rest => if key_eqb k' k then Some v else dict_get rest k
  end.

(** [obj[k]] on the built-in types. *)
Definition subscript (obj : value) (k : key) : outcome value :=
  match obj with
  | VList items | VTuple items =>
      match k with
      | KInt i =>
          match seq_index items i with
          | Some v => Ok v
          | None => Raise IndexError
          end
      | KStr _ => Raise TypeError
      end
  | VStr s =>
      match k with
      | KInt i =>
          match seq_index (list_ascii_of_string s) i with
          | Some c => Ok (VStr (String c EmptyString))
          | None => Raise IndexError
          end
      | KStr _ => Raise TypeError
      end
  | VDict items =>
      match dict_get items k with
      | Some v => Ok v
      | None => Raise (KeyError k)
      end
  | VNone | VInt _ | VObject _ => Raise TypeError
  end.

Definition getitem (obj : value) (k : key) : M value :=
  fun w => (subscript obj k, log (EvGetitem obj k) w).

End Py.

(* ===================================================================== *)
(** ** The functions of [flux_dev_script.py] *)
(* ===================================================================== *)

Module Script.
Import PosixPath Py.
Local Open Scope py_scope.

(** [[
    def get_value_at_index(obj, index):
        try:
            return obj[index]
        except KeyError:
            return obj["result"][index]
    ]] *)
Definition get_value_at_index (obj : value) (index : Z) : M value :=
  try_except
    (getitem obj (KInt index))
    is_KeyError
    (result <- getitem obj (KStr "result") ;;
     getitem result (KInt index)).

(** [[
    def find_path(name, path=None):
        if path is None:
            path = os.getcwd()
        if name in os.listdir(path):
            path_name = os.path.join(path, name)
            print(f"{name} found: {path_name}")
            return path_name
        parent_directory = os.path.dirname(path)
        if parent_directory == path:
            return None
        return find_path(name, parent_directory)
    ]]
    [find_path_at] is the function from the directory listing on, where
    [path] is a [str]; a recursive call always passes one. *)
Equations? find_path_at (name path : string) (w : world)
  : outcome (option string) * world by wf (String.length path) lt :=
  find_path_at name path w with listdir path w => {
    | (Raise e, w1) => (Raise e, w1);
    | (Ok entries, w1) with str_in name entries => {
      | true =>
          (let path_name := join path name in
           print (name ++ " found: " ++ path_name) ;;
           ret (Some path_name)) w1;
      | false with string_dec (dirname path) path => {
        | left _ => (Ok None, w1);
        | right _ => find_path_at name (dirname path) w1 } } }.
Proof. now apply DirnameShorter.dirname_shorter. Qed.

Definition find_path (name : string) (path : option string)
  : M (option string) :=
  path <- match path with
          | None => getcwd
          | Some p => ret p
          end ;;
  find_path_at name path.

(** [[
    def add_comfyui_directory_to_sys_path():
        comfyui_path = find_path("ComfyUI")
        if comfyui_path is not None and os.path.isdir(comfyui_path):
            sys.path.append(comfyui_path)
            print(f"'{comfyui_path}' added to sys.path")
    ]] *)
Definition add_comfyui_directory_to_sys_path : M unit :=
  comfyui_path <- find_path "ComfyUI" None ;;
  match comfyui_path with
  | None => ret tt
  | Some p =>
      d <- isdir p ;;
      if d then
        sys_path_append p ;;
        print ("'" ++ p ++ "' added to sys.path")
      else ret tt
  end.

Section ExtraModelPaths.

(** The framework's [load_extra_path_config], as exported by [main] and by
    [utils.extra_config]. *)
Variable main_load_extra_path_config : string -> M unit.
Variable utils_load_extra_path_config : string -> M unit.

(** [[
    def add_extra_model_paths():
        try:
            from main import load_extra_path_config
        except ImportError:
            print("Could not import load_extra_path_config from main.py. "
                  "Looking in utils.extra_config instead.")
            from utils.extra_config import load_extra_path_config
        extra_model_paths = find_path("extra_model_paths.yaml")
        if extra_model_paths is not None:
            load_extra_path_config(extra_model_paths)
        else:
            print("Could not find the extra_model_paths config file.")
    ]] *)
Definition add_extra_model_paths : M unit :=
  load_extra_path_config <-
    try_except
      (import_module "main" ;;
       ret main_load_extra_path_config)
      is_ImportError
      (print "Could not import load_extra_path_config from main.py. Looking in utils.extra_config instead." ;;
       import_module "utils.extra_config" ;;
       ret utils_load_extra_path_config) ;;
  extra_model_paths <- find_path "extra_model_paths.yaml" None ;;
  match extra_model_paths with
  | Some p => load_extra_path_config p
  | None => print "Could not find the extra_model_paths config file."
  end.

(** The module body up to the import of the node registry (lines 88, 89
    and 115 of the script). *)
Definition script_prelude : M unit :=
  add_comfyui_directory_to_sys_path ;;
  add_extra_model_paths ;;
  import_module "nodes".

End ExtraModelPaths.

End Script.

(* ===================================================================== *)
(** ** Concrete directory trees *)
(* ===================================================================== *)

Module Worlds.
Import Py.

(** A directory tree given by the child list of each of its directories;
    listing any other path fails with [ENOENT]. *)
Fixpoint lookup_dir (tree : list (string * list string)) (path : string)
  : os_error + list string :=
  match tree with
  | [] => inl ENOENT
  | (d, entries) :: rest =>
      if String.eqb d path then inr entries else lookup_dir rest path
  end.

Definition is_dir_in (tree : list (string * list string)) (path : string)
  : bool :=
  match lookup_dir tree path with inr _ => true | inl _ => false end.

(** A fresh process in directory [cwd] of [tree]: nothing is importable,
    [sys.path] is empty and nothing has happened yet. *)
Definition world_of (tree : list (string * list string)) (cwd : string)
  : world :=
  mkWorld (lookup_dir tree) (is_dir_in tree) (inr cwd)
          (fun _ _ => false) [] [].

(** [/a/b/c] with [target.yaml] in [/a/b]. *)
Definition tree_abc : list (string * list string) :=
  [ ("/", ["a"]);
    ("/a", ["b"]);
    ("/a/b", ["c"; "target.yaml"]);
    ("/a/b/c", []) ].

(** A directory [/a] that can be named with a trailing separator. *)
Definition tree_a : list (string * list string) :=
  [ ("/", ["a"]);
    ("/a", []);
    ("/a/", []) ].

(** A framework whose [main] exports [load_extra_path_config]. *)
Definition world_with_main : world :=
  mkWorld (lookup_dir tree_abc) (is_dir_in tree_abc) (inr "/a/b/c")
          (fun _ module => String.eqb module "main") [] [].

(** A node result given as a tuple, and one given as a dictionary. *)
Definition tuple_result : value := VTuple [VObject 1; VObject 2].
Definition dict_result : value :=
  VDict [(KStr "ui", VDict []); (KStr "result", tuple_result)].

End Worlds.

(* ===================================================================== *)
(** ** What a run lets one observe *)
(* ===================================================================== *)

Module Observe.
Import PosixPath Py.

(** The directory a call [find_path(name, path)] starts from. *)
Definition start_of (path : option string) (w : world) : option string :=
  match path with
  | Some p => Some p
  | None => match w_getcwd w with inr p => Some p | inl _ => None end
  end.

(** The paths [find_path] may visit from [p]: [p] and its ancestors. *)
Definition chain (k : nat) (p : string) : list string :=
  map (fun j => ancestor j p) (seq 0 k).

(** [name] is in the child list of the [k]-th ancestor of [p]. *)
Definition present_at (w : world) (name p : string) (k : nat) : Prop :=
  exists entries,
    w_listdir w (ancestor k p) = inr entries /\ str_in name entries = true.

(** The [k]-th ancestor of [p] can be listed and [name] is not in it. *)
Definition absent_at (w : world) (name p : string) (k : nat) : Prop :=
  exists entries,
    w_listdir w (ancestor k p) = inr entries /\ str_in name entries = false.

(** The [k]-th ancestor of [p] can be listed. *)
Definition listable_at (w : world) (p : string) (k : nat) : Prop :=
  exists entries, w_listdir w (ancestor k p) = inr entries.

(** The world after the operations [evs], none of which changes it. *)
Definition log_all (evs : list event) (w : world) : world :=
  fold_left (fun w ev => log ev w) evs w.

(** The operations performed between two states of the log. *)
Definition performed (w w' : world) (evs : list event) : Prop :=
  w_log w' = (w_log w ++ evs)%list.

(** Number of directory listings.  A call of [find_path] lists one
    directory and then returns or calls itself, so a run with [n + 1]
    listings has made [n] recursive calls. *)
Definition count_listdir (evs : list event) : nat :=
  List.length (filter (fun ev => match ev with EvListdir _ => true | _ => false end) evs).

(** The lines written to standard output. *)
Fixpoint printed (evs : list event) : list string :=
  match evs with
  | [] => []
  | EvPrint line :: rest => line :: printed rest
  | _ :: rest => printed rest
  end.

(** The subscriptions [obj[k]] performed. *)
Fixpoint subscripted (evs : list event) : list (value * key) :=
  match evs with
  | [] => []
  | EvGetitem obj k :: rest => (obj, k) :: subscripted rest
  | _ :: rest => subscripted rest
  end.

(** What a call of [find_path] that returns [r] prints. *)
Definition found_line (name : string) (r : outcome (option string))
  : list event :=
  match r with
  | Ok (Some path_name) => [EvPrint (name ++ " found: " ++ path_name)]
  | _ => []
  end.

(** Everything but the log: the directory tree, the working directory,
    the importable modules and [sys.path]. *)
Definition same_environment (w w' : world) : Prop :=
  w_listdir w' = w_listdir w /\ w_isdir w' = w_isdir w /\
  w_getcwd w' = w_getcwd w /\ w_importable w' = w_importable w /\
  w_sys_path w' = w_sys_path w.

(** The items of a sequence value, [None] for a value that is no sequence.
    An item of a [str] is the one-character [str]. *)
Definition sequence_items (obj : value) : option (list value) :=
  match obj with
  | VList items | VTuple items => Some items
  | VStr s =>
      Some (map (fun c => VStr (String c EmptyString)) (list_ascii_of_string s))
  | _ => None
  end.

(** Position of index [i] in a sequence of length [n]: a negative index
    counts from the end. *)
Definition position (n i : Z) : nat :=
  Z.to_nat (if (i <? 0)%Z then (i + n)%Z else i).

(** The outcome of [obj["result"][index]]. *)
Definition fallback (obj : value) (index : Z) : outcome value :=
  match subscript obj (KStr "result") with
  | Ok result => subscript result (KInt index)
  | Raise e => Raise e
  end.

End Observe.

(* ===================================================================== *)
(** ** An installation of the framework *)
(* ===================================================================== *)

Module Installation.
Import Py Worlds.

(** A work directory beside a [ComfyUI] directory that holds the
    framework's modules; no [extra_model_paths.yaml] anywhere. *)
Definition tree_comfy : list (string * list string) :=
  [ ("/", ["home"]);
    ("/home", ["ComfyUI"; "work"]);
    ("/home/ComfyUI", ["main.py"; "nodes.py"]);
    ("/home/work", []) ].

(** The same, with a configuration file in [/home]. *)
Definition tree_comfy_config : list (string * list string) :=
  [ ("/", ["home"]);
    ("/home", ["ComfyUI"; "extra_model_paths.yaml"; "work"]);
    ("/home/ComfyUI", ["main.py"; "nodes.py"]);
    ("/home/work", []) ].

(** [main] and [nodes] are importable once [/home/ComfyUI] is on
    [sys.path]. *)
Definition comfy_importable (sys_path : list string) (module : string)
  : bool :=
  existsb (String.eqb "/home/ComfyUI") sys_path &&
  (String.eqb module "main" || String.eqb module "nodes").

(** A process started in [/home/work]. *)
Definition world_comfy (tree : list (string * list string)) : world :=
  mkWorld (lookup_dir tree) (is_dir_in tree) (inr "/home/work")
          comfy_importable ["/usr/lib/python3"] [].

(** A process started in [cwd] of [tree] for which exactly [modules] can
    be imported, whatever [sys.path] is. *)
Definition world_importing (modules : list string)
           (tree : list (string * list string)) (cwd : string) : world :=
  mkWorld (lookup_dir tree) (is_dir_in tree) (inr cwd)
          (fun _ module => existsb (String.eqb module) modules) [] [].

(** A regular file named [ComfyUI] beside the work directory. *)
Definition tree_comfy_file : list (string * list string) :=
  [ ("/", ["home"]);
    ("/home", ["ComfyUI"; "work"]);
    ("/home/work", []) ].

(** A loader that records the path it is given. *)
Definition recording_loader (tag : string) (path : string) : M unit :=
  print (tag ++ path).

End Installation.

Module WorldOps.
Import PosixPath Py Observe.

(** The events of a successful search from [cwd]. *)
Definition search_events (name cwd : string) (k : nat) : list event :=
  (map EvListdir (chain (S k) cwd) ++
   [EvPrint (name ++ " found: " ++ join (ancestor k cwd) name)])%list.

(** The world after [sys.path.append(p)]. *)
Definition appended (p : string) (w : world) : world :=
  snd (sys_path_append p w).

(** The lines the start-up functions print. *)
Definition added_line (p : string) : string :=
  "'" ++ p ++ "' added to sys.path".

Definition import_warning : string :=
  "Could not import load_extra_path_config from main.py. Looking in utils.extra_config instead.".

Definition config_missing : string :=
  "Could not find the extra_model_paths config file.".

End WorldOps.

Module PathShape.
Import PyStr.

(** A path is written normally when no separator follows its last
    component. *)
Definition normal (d : string) : Prop :=
  endswith sep d = false \/ all_char sep d = true.

End PathShape.

Module Endings.
Import PosixPath Py Observe.

(** How a run from [path] ends: at the first ancestor that has the name,
    at the first that cannot be listed, or at the root. *)
Inductive ending (w : world) (name path : string) (k : nat)
  : outcome (option string) -> Prop :=
| EndFound :
    present_at w name path k ->
    ending w name path k (Ok (Some (join (ancestor k path) name)))
| EndError err :
    w_listdir w (ancestor k path) = inl err ->
    ending w name path k (Raise (OSError err (ancestor k path)))
| EndRoot :
    absent_at w name path k ->
    ancestor (S k) path = ancestor k path ->
    ending w name path k (Ok None).

End Endings.

(* ===================================================================== *)
(** * Properties *)
(* ===================================================================== *)

Local Open Scope list_scope.

(** ** The log and the environment *)

Module LogFacts.
Import Py Observe.

Lemma log_all_app (evs evs' : list event) (w : world) :
  log_all (evs ++ evs') w = log_all evs' (log_all evs w).
Proof. unfold log_all. now rewrite fold_left_app. Qed.

Lemma log_all_snoc (evs : list event) (ev : event) (w : world) :
  log_all (evs ++ [ev]) w = log ev (log_all evs w).
Proof. now rewrite log_all_app. Qed.

Lemma log_all_cons (ev : event) (evs : list event) (w : world) :
  log_all (ev :: evs) w = log_all evs (log ev w).
Proof. reflexivity. Qed.

Lemma w_log_log_all (evs : list event) (w : world) :
  w_log (log_all evs w) = w_log w ++ evs.
Proof.
  revert w. induction evs as [|ev evs IH]; intros w; simpl.
  - now rewrite app_nil_r.
  - rewrite IH. simpl. now rewrite <- app_assoc.
Qed.

Lemma same_environment_log_all (evs : list event) (w : world) :
  same_environment w (log_all evs w).
Proof.
  revert w. induction evs as [|ev evs IH]; intros w; simpl.
  - repeat split.
  - destruct (IH (log ev w)) as (H1 & H2 & H3 & H4 & H5).
    repeat split; simpl in *; assumption.
Qed.

Lemma w_listdir_log_all (evs : list event) (w : world) :
  w_listdir (log_all evs w) = w_listdir w.
Proof. apply same_environment_log_all. Qed.

Lemma performed_log_all (evs : list event) (w : world) :
  performed w (log_all evs w) evs.
Proof. apply w_log_log_all. Qed.

Lemma count_listdir_app (evs evs' : list event) :
  count_listdir (evs ++ evs') = count_listdir evs + count_listdir evs'.
Proof. unfold count_listdir. now rewrite filter_app, length_app. Qed.

Lemma count_listdir_map (dirs : list string) :
  count_listdir (map EvListdir dirs) = List.length dirs.
Proof.
  unfold count_listdir. induction dirs as [|d dirs IH]; simpl; congruence.
Qed.

Lemma printed_app (evs evs' : list event) :
  printed (evs ++ evs') = printed evs ++ printed evs'.
Proof.
  induction evs as [|[p|l|o k] evs IH]; simpl; auto.
  now rewrite IH.
Qed.

Lemma printed_map_listdir (dirs : list string) :
  printed (map EvListdir dirs) = [].
Proof. induction dirs; simpl; auto. Qed.

End LogFacts.

(** ** Ancestors *)

Module AncestorFacts.
Import PosixPath Observe.

Lemma ancestor_S (k : nat) (p : string) :
  ancestor (S k) p = dirname (ancestor k p).
Proof. reflexivity. Qed.

Lemma ancestor_dirname (k : nat) (p : string) :
  ancestor k (dirname p) = ancestor (S k) p.
Proof.
  unfold ancestor. induction k as [|k IH]; simpl; [reflexivity |].
  now rewrite IH.
Qed.

(** Once the parent of an ancestor is that ancestor, the chain stays there. *)
Lemma ancestor_fixed (j m : nat) (p : string) :
  ancestor (S j) p = ancestor j p -> j <= m -> ancestor m p = ancestor j p.
Proof.
  intros Hfix Hle. induction Hle as [|m Hle IH]; [reflexivity |].
  rewrite ancestor_S, IH, <- ancestor_S. exact Hfix.
Qed.

Lemma chain_S (k : nat) (p : string) :
  chain (S k) p = (chain k p ++ [ancestor k p])%list.
Proof. unfold chain. now rewrite seq_S, map_app. Qed.

Lemma chain_length (k : nat) (p : string) : List.length (chain k p) = k.
Proof. unfold chain. now rewrite length_map, length_seq. Qed.

End AncestorFacts.

(** ** One step of [find_path] and its ascent *)

Module FindPathFacts.
Import PosixPath Py Script Observe LogFacts AncestorFacts.

(** The body of [find_path], one call deep. *)
Lemma find_path_at_unfold (name path : string) (w : world) :
  find_path_at name path w =
  match w_listdir w path with
  | inl err => (Raise (OSError err path), log (EvListdir path) w)
  | inr entries =>
      if str_in name entries then
        (Ok (Some (join path name)),
         log (EvPrint (name ++ " found: " ++ join path name)%string)
             (log (EvListdir path) w))
      else if string_dec (dirname path) path then
        (Ok None, log (EvListdir path) w)
      else find_path_at name (dirname path) (log (EvListdir path) w)
  end.
Proof.
  rewrite find_path_at_equation_1. unfold listdir.
  destruct (w_listdir w path) as [err|entries]; simpl; [reflexivity |].
  destruct (str_in name entries); simpl; [reflexivity |].
  destruct (string_dec (dirname path) path); reflexivity.
Qed.

(** While the name is absent and the root is not reached, [find_path]
    lists one directory after the other and goes on from the next. *)
Lemma find_path_at_climb (k : nat) (name path : string) (w : world) :
  (forall j, j < k -> absent_at w name path j) ->
  (forall j, j < k -> ancestor (S j) path <> ancestor j path) ->
  find_path_at name path w =
  find_path_at name (ancestor k path)
               (log_all (map EvListdir (chain k path)) w).
Proof.
  induction k as [|k IH]; intros Habs Hne; [reflexivity |].
  rewrite IH by (intros; auto).
  rewrite chain_S, map_app, log_all_app.
  change (map EvListdir [ancestor k path]) with [EvListdir (ancestor k path)].
  rewrite log_all_cons. change (log_all [] ?x) with x.
  destruct (Habs k (Nat.lt_succ_diag_r k)) as (entries & Hl & Hin).
  rewrite (find_path_at_unfold name (ancestor k path)).
  rewrite w_listdir_log_all, Hl, Hin.
  destruct (string_dec _ _) as [Heq|_]; [| reflexivity].
  exfalso. exact (Hne k (Nat.lt_succ_diag_r k) Heq).
Qed.

(** An ancestor whose listing differs from that of all closer ones lies
    strictly before the point where the chain stops moving. *)
Lemma climb_moves (w : world) (name path : string) (k : nat) :
  (forall j, j < k -> absent_at w name path j) ->
  ~ absent_at w name path k ->
  forall j, j < k -> ancestor (S j) path <> ancestor j path.
Proof.
  intros Habs Hk j Hj Hfix. apply Hk.
  unfold absent_at in *.
  rewrite (ancestor_fixed j k path Hfix (Nat.lt_le_incl _ _ Hj)).
  exact (Habs j Hj).
Qed.

(** Induction along the ascent: a property of a path follows from the
    property of its parent, when it has one. *)
Lemma ascent_ind (P : string -> Prop) :
  (forall p, (dirname p <> p -> P (dirname p)) -> P p) ->
  forall p, P p.
Proof.
  intros Hstep p.
  induction p as [p IH] using (induction_ltof1 _ String.length).
  apply Hstep. intros Hne. apply IH. unfold ltof.
  now apply DirnameShorter.dirname_shorter.
Qed.

Lemma absent_at_parent (w : world) (name p : string) (ev : event) :
  (forall k, absent_at w name p k) ->
  forall k, absent_at (log ev w) name (dirname p) k.
Proof.
  intros H k. unfold absent_at. rewrite ancestor_dirname. exact (H (S k)).
Qed.

(** The name is found in the [k]-th ancestor, the first that has it. *)
Lemma find_path_at_found (k : nat) (name path : string) (w : world) :
  (forall j, j < k -> absent_at w name path j) ->
  present_at w name path k ->
  find_path_at name path w =
  (Ok (Some (join (ancestor k path) name)),
   log_all (map EvListdir (chain (S k) path) ++
            [EvPrint (name ++ " found: " ++ join (ancestor k path) name)%string])
           w).
Proof.
  intros Habs (entries & Hl & Hin).
  rewrite (find_path_at_climb k name path w Habs).
  - rewrite find_path_at_unfold, w_listdir_log_all, Hl, Hin.
    rewrite chain_S, map_app, !log_all_app. reflexivity.
  - apply (climb_moves w name path k Habs).
    intros (entries' & Hl' & Hin'). congruence.
Qed.

(** The [k]-th ancestor, the first without a listing free of the name,
    cannot be listed. *)
Lemma find_path_at_raises (k : nat) (name path : string) (w : world)
      (err : os_error) :
  (forall j, j < k -> absent_at w name path j) ->
  w_listdir w (ancestor k path) = inl err ->
  find_path_at name path w =
  (Raise (OSError err (ancestor k path)),
   log_all (map EvListdir (chain (S k) path)) w).
Proof.
  intros Habs Hl.
  rewrite (find_path_at_climb k name path w Habs).
  - rewrite find_path_at_unfold, w_listdir_log_all, Hl.
    rewrite chain_S, map_app, !log_all_app. reflexivity.
  - apply (climb_moves w name path k Habs).
    intros (entries' & Hl' & Hin'). congruence.
Qed.

(** The name is in no directory of the ascent. *)
Lemma find_path_at_not_found (name path : string) :
  forall w,
  (forall k, absent_at w name path k) ->
  exists dirs,
    find_path_at name path w = (Ok None, log_all (map EvListdir dirs) w).
Proof.
  induction path as [path IH] using ascent_ind. intros w Habs.
  destruct (Habs 0) as (entries & Hl & Hin). simpl in Hl.
  rewrite find_path_at_unfold, Hl, Hin.
  destruct (string_dec (dirname path) path) as [_|Hne].
  - now exists [path].
  - destruct (IH Hne (log (EvListdir path) w)) as (dirs & ->).
    + now apply absent_at_parent.
    + now exists (path :: dirs).
Qed.

(** Among the ancestors up to one that has the name, all of them listable,
    there is a first that has it. *)
Lemma first_present (w : world) (name path : string) (k : nat) :
  present_at w name path k ->
  (forall j, j < k -> listable_at w path j) ->
  exists j, j <= k /\ present_at w name path j /\
            forall i, i < j -> absent_at w name path i.
Proof.
  induction k as [k IH] using lt_wf_ind. intros Hk Hlist.
  assert (Hdec : (forall i, i < k -> absent_at w name path i) \/
                 exists i, i < k /\ present_at w name path i).
  { clear Hk IH. induction k as [|k IHk].
    - left. intros i Hi. lia.
    - destruct IHk as [Hall|(i & Hi & Hp)].
      + intros j Hj. apply Hlist. lia.
      + destruct (Hlist k (Nat.lt_succ_diag_r k)) as (entries & Hl).
        destruct (str_in name entries) eqn:Hin.
        * right. exists k. split; [lia |]. now exists entries.
        * left. intros i Hi. inversion Hi; subst.
          -- now exists entries.
          -- apply Hall. lia.
      + right. exists i. split; [lia | exact Hp]. }
  destruct Hdec as [Hall|(i & Hi & Hp)].
  - exists k. auto.
  - destruct (IH i Hi Hp) as (j & Hj & Hpj & Hmin).
    + intros m Hm. apply Hlist. lia.
    + exists j. split; [lia | auto].
Qed.

End FindPathFacts.

(** ** The path resolver: results *)

Module FindPathResults.
Import PosixPath Py Script Observe Worlds LogFacts AncestorFacts FindPathFacts.

Lemma find_path_start (name : string) (path : option string) (p : string)
      (w : world) :
  start_of path w = Some p ->
  find_path name path w = find_path_at name p w.
Proof.
  unfold start_of, find_path, bind, getcwd, ret.
  destruct path as [q|].
  - now intros [= ->].
  - destruct (w_getcwd w); [discriminate | now intros [= ->]].
Qed.

(** In [tree_abc] the chain of [/a/b/c] stays at the root from the third
    ancestor on. *)
Lemma ancestor_abc_root (k : nat) : ancestor (3 + k) "/a/b/c" = "/"%string.
Proof. now apply (ancestor_fixed 3 (3 + k) "/a/b/c"); [| lia]. Qed.

Lemma absent_abc (name : string) :
  str_in name ["a"; "b"; "c"; "target.yaml"]%string = false ->
  forall k, absent_at (world_of tree_abc "/a/b/c") name "/a/b/c" k.
Proof.
  intros Hname k. unfold absent_at.
  simpl in Hname. apply orb_false_elim in Hname as [Ha Hname].
  apply orb_false_elim in Hname as [Hb Hname].
  apply orb_false_elim in Hname as [Hc Hname].
  destruct k as [|[|[|k]]].
  - exists []. split; reflexivity.
  - exists ["c"; "target.yaml"]%string. split; [reflexivity |].
    simpl. now rewrite Hc.
  - exists ["b"]%string. split; [reflexivity |]. simpl. now rewrite Hb.
  - change (S (S (S k))) with (3 + k). rewrite (ancestor_abc_root k).
    exists ["a"]%string.
    split; [reflexivity |]. simpl. now rewrite Ha.
Qed.

(** C1. When the target name is in the child list of the starting directory
    or of one of its ancestors, and the directories below that one can be
    listed, [find_path] returns the path of an ancestor that has the name,
    joined with the name: that very ancestor unless a closer one has the
    name too. *)
Theorem find_path_returns_ancestor_joined
        (w : world) (name : string) (path : option string) (p : string)
        (k : nat) :
  start_of path w = Some p ->
  present_at w name p k ->
  (forall j, j < k -> listable_at w p j) ->
  exists j,
    j <= k /\ present_at w name p j /\
    ((forall i, i < k -> ~ present_at w name p i) -> j = k) /\
    fst (find_path name path w) = Ok (Some (join (ancestor j p) name)).
Proof.
  intros Hstart Hk Hlist.
  destruct (first_present w name p k Hk Hlist) as (j & Hj & Hpj & Hmin).
  exists j. repeat split; try assumption.
  - intros Hnone. destruct (Nat.eq_dec j k) as [|Hne]; [assumption |].
    exfalso. apply (Hnone j); [lia | exact Hpj].
  - rewrite (find_path_start name path p w Hstart).
    now rewrite (find_path_at_found j name p w Hmin Hpj).
Qed.

Lemma find_path_returns_ancestor_joined_witness :
  let w := world_of tree_abc "/a/b/c" in
  start_of None w = Some "/a/b/c"%string /\
  present_at w "target.yaml" "/a/b/c" 1 /\
  exists j,
    j <= 1 /\ present_at w "target.yaml" "/a/b/c" j /\
    ((forall i, i < 1 -> ~ present_at w "target.yaml" "/a/b/c" i) -> j = 1) /\
    fst (find_path "target.yaml" None w)
    = Ok (Some (join (ancestor j "/a/b/c") "target.yaml")).
Proof.
  intros w.
  assert (Hp : present_at w "target.yaml" "/a/b/c" 1).
  { exists ["c"; "target.yaml"]%string. split; reflexivity. }
  split; [reflexivity |]. split; [exact Hp |].
  apply (find_path_returns_ancestor_joined w "target.yaml" None "/a/b/c" 1).
  - reflexivity.
  - exact Hp.
  - intros j Hj. assert (j = 0) as -> by lia. exists []. reflexivity.
Defined.

(** C2. When the name is in the child lists of several ancestors,
    [find_path] returns the match of the closest one: with [k] the least
    number of ascents that reaches a directory having the name, it lists
    the [k + 1] directories from the start to that one and nothing beyond.
    A start directory that has the name is the only one listed. *)
Theorem find_path_closest_match
        (w : world) (name : string) (path : option string) (p : string)
        (k : nat) :
  start_of path w = Some p ->
  present_at w name p k ->
  (forall j, j < k -> absent_at w name p j) ->
  exists w' evs,
    find_path name path w = (Ok (Some (join (ancestor k p) name)), w') /\
    performed w w' evs /\
    evs = map EvListdir (chain (S k) p) ++
          [EvPrint (name ++ " found: " ++ join (ancestor k p) name)%string] /\
    count_listdir evs = S k /\
    (k = 0 -> evs = [EvListdir p;
                     EvPrint (name ++ " found: " ++ join p name)%string]).
Proof.
  intros Hstart Hk Habs.
  rewrite (find_path_start name path p w Hstart).
  rewrite (find_path_at_found k name p w Habs Hk).
  eexists. eexists. split; [reflexivity |].
  split; [apply performed_log_all |]. split; [reflexivity |]. split.
  - rewrite count_listdir_app, count_listdir_map, chain_length.
    unfold count_listdir. simpl. lia.
  - intros ->. reflexivity.
Qed.

Lemma find_path_closest_match_witness :
  let w := world_of (("/a/b/c", ["target.yaml"]%string) :: tree_abc) "/a/b/c" in
  start_of None w = Some "/a/b/c"%string /\
  present_at w "target.yaml" "/a/b/c" 0 /\
  present_at w "target.yaml" "/a/b/c" 1 /\
  exists w' evs,
    find_path "target.yaml" None w
    = (Ok (Some (join (ancestor 0 "/a/b/c") "target.yaml")), w') /\
    performed w w' evs /\
    evs = map EvListdir (chain 1 "/a/b/c") ++
          [EvPrint ("target.yaml" ++ " found: " ++
                    join (ancestor 0 "/a/b/c") "target.yaml")%string] /\
    count_listdir evs = 1 /\
    (0 = 0 -> evs = [EvListdir "/a/b/c";
                     EvPrint ("target.yaml" ++ " found: " ++
                              join "/a/b/c" "target.yaml")%string]).
Proof.
  intros w.
  assert (Hp : present_at w "target.yaml" "/a/b/c" 0).
  { exists ["target.yaml"]%string. split; reflexivity. }
  split; [reflexivity |]. split; [exact Hp |]. split.
  { exists ["c"; "target.yaml"]%string. split; reflexivity. }
  apply (find_path_closest_match w "target.yaml" None "/a/b/c" 0).
  - reflexivity.
  - exact Hp.
  - intros j Hj. lia.
Defined.

(** C3. When every directory from the start up to the root can be listed
    and none has the name, [find_path] returns [None]: it raises nothing
    and prints nothing. *)
Theorem find_path_absent_returns_none
        (w : world) (name : string) (path : option string) (p : string) :
  start_of path w = Some p ->
  (forall k, absent_at w name p k) ->
  exists w' evs,
    find_path name path w = (Ok None, w') /\
    performed w w' evs /\ printed evs = [].
Proof.
  intros Hstart Habs.
  rewrite (find_path_start name path p w Hstart).
  destruct (find_path_at_not_found name p w Habs) as (dirs & ->).
  eexists. eexists. split; [reflexivity |].
  split; [apply performed_log_all | apply printed_map_listdir].
Qed.

Lemma find_path_absent_returns_none_witness :
  let w := world_of tree_abc "/a/b/c" in
  start_of None w = Some "/a/b/c"%string /\
  (forall k, absent_at w "ComfyUI" "/a/b/c" k) /\
  exists w' evs,
    find_path "ComfyUI" None w = (Ok None, w') /\
    performed w w' evs /\ printed evs = [].
Proof.
  intros w.
  assert (Habs : forall k, absent_at w "ComfyUI" "/a/b/c" k).
  { apply absent_abc. reflexivity. }
  split; [reflexivity |]. split; [exact Habs |].
  apply (find_path_absent_returns_none w "ComfyUI" None "/a/b/c").
  - reflexivity.
  - exact Habs.
Defined.

(** C10. [find_path] does not handle a failing directory listing: when the
    start directory, or the first ancestor reached without a match, cannot
    be listed, the error of [os.listdir] reaches the caller and [None] is
    not returned. *)
Theorem find_path_unlistable_raises
        (w : world) (name : string) (path : option string) (p : string)
        (k : nat) (err : os_error) :
  start_of path w = Some p ->
  (forall j, j < k -> absent_at w name p j) ->
  w_listdir w (ancestor k p) = inl err ->
  fst (find_path name path w) = Raise (OSError err (ancestor k p)) /\
  fst (find_path name path w) <> Ok None.
Proof.
  intros Hstart Habs Hl.
  rewrite (find_path_start name path p w Hstart).
  rewrite (find_path_at_raises k name p w err Habs Hl).
  split; [reflexivity | discriminate].
Qed.

Lemma find_path_unlistable_raises_witness :
  let w := world_of tree_abc "/a/b/c" in
  start_of (Some "/a/missing"%string) w = Some "/a/missing"%string /\
  w_listdir w (ancestor 0 "/a/missing") = inl ENOENT /\
  fst (find_path "b" (Some "/a/missing"%string) w)
  = Raise (OSError ENOENT (ancestor 0 "/a/missing")) /\
  fst (find_path "b" (Some "/a/missing"%string) w) <> Ok None.
Proof.
  intros w. split; [reflexivity |]. split; [reflexivity |].
  apply (find_path_unlistable_raises w "b" (Some "/a/missing"%string)
                                     "/a/missing" 0 ENOENT).
  - reflexivity.
  - intros j Hj. lia.
  - reflexivity.
Defined.

End FindPathResults.

(** ** Depth of a path and the number of ascents *)

Module DepthFacts.
Import PyStr PosixPath DirnameShorter.
Local Open Scope string_scope.

Lemma rfind_lower (c : ascii) (s : string) : (-1 <= rfind c s)%Z.
Proof.
  induction s as [|a s IH]; simpl; [lia |].
  destruct (0 <=? rfind c s)%Z eqn:E; [apply Z.leb_le in E; lia |].
  destruct (Ascii.eqb a c); lia.
Qed.

Lemma rfind_contains (c : ascii) (s : string) :
  (0 <=? rfind c s)%Z = contains c s.
Proof.
  induction s as [|a s IH]; simpl; [reflexivity |].
  rewrite <- IH. destruct (0 <=? rfind c s)%Z eqn:E.
  - apply Z.leb_le in E. rewrite orb_true_r. apply Z.leb_le. lia.
  - destruct (Ascii.eqb a c); reflexivity.
Qed.

Lemma substring_0_0 (s : string) : substring 0 0 s = "".
Proof. destruct s; reflexivity. Qed.

Lemma head_cons (a : ascii) (s : string) :
  head (String a s) =
  if contains sep s then String a (head s)
  else if is_sep a then String a "" else "".
Proof.
  unfold head, slice_to, is_sep. simpl rfind.
  rewrite <- (rfind_contains sep s).
  pose proof (rfind_lower sep s) as Hlow.
  destruct (0 <=? rfind sep s)%Z eqn:E.
  - apply Z.leb_le in E.
    replace (Z.to_nat (rfind sep s + 1 + 1)) with (S (Z.to_nat (rfind sep s + 1)))
      by lia.
    reflexivity.
  - destruct (Ascii.eqb a sep); simpl; [| reflexivity].
    now rewrite substring_0_0.
Qed.

Lemma head_no_sep (s : string) : contains sep s = false -> head s = "".
Proof.
  destruct s as [|a s]; [reflexivity |]. simpl. intros H.
  apply orb_false_elim in H as [Ha Hs].
  rewrite head_cons, Hs. unfold is_sep. now rewrite Ha.
Qed.

Lemma endswith_cons (c a : ascii) (s : string) :
  endswith c s = true -> endswith c (String a s) = true.
Proof. destruct s; [discriminate | auto]. Qed.

(** A path is its head followed by a last component without separator. *)
Lemma head_split (p : string) :
  exists t, p = head p ++ t /\ contains sep t = false /\
            (head p = "" \/ endswith sep (head p) = true).
Proof.
  induction p as [|a p (t & Hp & Ht & Hh)].
  - exists "". repeat split. now left.
  - rewrite head_cons. destruct (contains sep p) eqn:Hc.
    + exists t. split; [simpl; now rewrite <- Hp |]. split; [exact Ht |].
      right. destruct Hh as [Hh|Hh].
      * rewrite Hh in Hp. simpl in Hp. congruence.
      * now apply endswith_cons.
    + rewrite (head_no_sep p Hc) in Hp. simpl in Hp. subst t.
      destruct (is_sep a) eqn:Ha.
      * exists p. repeat split; [exact Hc |]. right. exact Ha.
      * exists (String a p). repeat split; [| now left].
        simpl. unfold is_sep in Ha. now rewrite Ha, Hc.
Qed.

Lemma nonempty_false (s : string) : nonempty s = false -> s = "".
Proof. destruct s; [reflexivity | discriminate]. Qed.

Lemma comps_all_sep (b : bool) (s : string) :
  all_char sep s = true -> comps_from b s = 0.
Proof.
  revert b. induction s as [|a s IH]; intros b; simpl; [reflexivity |].
  intros H. apply andb_prop in H as [Ha Hs].
  unfold is_sep. rewrite Ha. now apply IH.
Qed.

Lemma comps_no_sep (b : bool) (t : string) :
  contains sep t = false ->
  comps_from b t = if nonempty t then (if b then 0 else 1) else 0.
Proof.
  revert b. induction t as [|a t IH]; intros b; simpl; [reflexivity |].
  intros H. apply orb_false_elim in H as [Ha Ht].
  unfold is_sep. rewrite Ha, (IH true Ht).
  destruct (nonempty t), b; reflexivity.
Qed.

Lemma comps_app (b : bool) (h t : string) :
  endswith sep h = true ->
  comps_from b (h ++ t) = comps_from b h + comps_from false t.
Proof.
  revert b. induction h as [|a h IH]; intros b He; [discriminate |].
  destruct (nonempty h) eqn:Hn.
  - assert (He' : endswith sep h = true) by (destruct h; [discriminate | exact He]).
    simpl. destruct (is_sep a); rewrite IH by exact He'; lia.
  - apply nonempty_false in Hn. subst h. simpl in *.
    unfold is_sep. now rewrite He.
Qed.

Lemma comps_rstrip (b : bool) (s : string) :
  comps_from b (rstrip sep s) = comps_from b s.
Proof.
  revert b. induction s as [|a s IH]; intros b; [reflexivity |].
  cbn [rstrip comps_from]. destruct (rstrip sep s) as [|x t] eqn:E.
  - unfold is_sep. destruct (Ascii.eqb a sep) eqn:Ha.
    + rewrite <- IH. reflexivity.
    + cbn [comps_from]. unfold is_sep. rewrite Ha, <- IH. reflexivity.
  - cbn [comps_from]. fold (comps_from b (String x t)).
    destruct (is_sep a); now rewrite <- !IH.
Qed.

Lemma endswith_rstrip (s : string) : endswith sep (rstrip sep s) = false.
Proof.
  induction s as [|a s IH]; [reflexivity |].
  cbn [rstrip]. destruct (rstrip sep s) as [|x t] eqn:E.
  - destruct (Ascii.eqb a sep) eqn:Ha; [reflexivity | simpl; exact Ha].
  - exact IH.
Qed.

Lemma endswith_app_no_sep (h t : string) :
  contains sep t = false -> nonempty t = true ->
  endswith sep (h ++ t) = false.
Proof.
  intros Ht Hne. induction h as [|a h IH].
  - simpl. induction t as [|x t IHt]; [discriminate |].
    simpl in Ht. apply orb_false_elim in Ht as [Hx Ht].
    destruct t as [|y t]; [exact Hx |]. now apply IHt.
  - simpl. destruct (h ++ t) eqn:E; [| exact IH].
    destruct h; [destruct t |]; discriminate.
Qed.

(** Each ascent uses up one unit of the bound. *)
Lemma ascents_bound_dirname (p : string) :
  dirname p <> p -> S (ascents_bound (dirname p)) <= ascents_bound p.
Proof.
  unfold dirname. fold (head p).
  destruct (head_split p) as (t & Hp & Ht & Hh).
  assert (Hstrip : ascents_bound (rstrip sep (head p)) = depth (head p)).
  { unfold ascents_bound, depth.
    now rewrite comps_rstrip, endswith_rstrip, Nat.add_0_r. }
  destruct (nonempty t) eqn:Hne.
  - (* a last component after the head *)
    assert (Hend : endswith sep p = false)
      by (rewrite Hp; now apply endswith_app_no_sep).
    assert (Hdepth : ascents_bound p = depth (head p) + 1).
    { unfold ascents_bound. rewrite Hend, Nat.add_0_r. unfold depth.
      destruct Hh as [Hh|Hh].
      - rewrite Hp at 1. rewrite Hh. simpl.
        now rewrite (comps_no_sep false t Ht), Hne.
      - rewrite Hp at 1.
        now rewrite (comps_app false _ t Hh), (comps_no_sep false t Ht), Hne. }
    intros _. rewrite Hdepth.
    destruct (nonempty (head p) && negb (all_char sep (head p))) eqn:Hc.
    + rewrite Hstrip. lia.
    + unfold ascents_bound.
      destruct (endswith sep (head p) && negb (all_char sep (head p))) eqn:Hc'.
      * apply andb_prop in Hc' as [He Ha]. rewrite Ha, andb_true_r in Hc.
        destruct (head p); discriminate.
      * lia.
  - (* the path ends with its head *)
    apply nonempty_false in Hne. subst t.
    rewrite DirnameShorter.app_empty_r in Hp.
    destruct (nonempty (head p) && negb (all_char sep (head p))) eqn:Hc.
    + intros _. rewrite Hstrip. apply andb_prop in Hc as [Hn Ha].
      unfold ascents_bound. rewrite <- Hp.
      destruct Hh as [Hh|Hh]; [rewrite Hh in Hn; discriminate |].
      rewrite <- Hp in Hh, Ha. rewrite Hh, Ha. simpl. lia.
    + intros Hne. now rewrite <- Hp in Hne.
Qed.

Lemma ascents_bound_le (p : string) : ascents_bound p <= depth p + trailing p.
Proof.
  unfold ascents_bound, trailing.
  destruct (endswith sep p), (all_char sep p); simpl; lia.
Qed.

End DepthFacts.

(** ** The path resolver: effects and number of steps *)

Module FindPathEffects.
Import PosixPath Py Script Observe Worlds LogFacts AncestorFacts FindPathFacts.
Import FindPathResults DepthFacts.

(** A run from [path] lists a non-empty sequence of directories, at most
    one more than [ascents_bound path], and prints the line of the match
    last, if there is one. *)
Lemma find_path_at_effects (name path : string) :
  forall w,
  exists dirs,
    snd (find_path_at name path w)
    = log_all (map EvListdir dirs ++
               found_line name (fst (find_path_at name path w))) w /\
    1 <= List.length dirs <= S (ascents_bound path).
Proof.
  induction path as [path IH] using ascent_ind. intros w.
  rewrite find_path_at_unfold.
  destruct (w_listdir w path) as [err|entries].
  { exists [path]. simpl. split; [reflexivity | lia]. }
  destruct (str_in name entries).
  { exists [path]. simpl. split; [reflexivity | lia]. }
  destruct (string_dec (dirname path) path) as [_|Hne].
  { exists [path]. simpl. split; [reflexivity | lia]. }
  destruct (IH Hne (log (EvListdir path) w)) as (dirs & Hw & Hlen).
  exists (path :: dirs). split.
  - rewrite Hw. reflexivity.
  - pose proof (ascents_bound_dirname path Hne). simpl. lia.
Qed.

Lemma find_path_getcwd_fails (name : string) (w : world) :
  start_of None w = None ->
  exists err, find_path name None w = (Raise (OSError err ""), w).
Proof.
  unfold start_of, find_path, bind, getcwd.
  destruct (w_getcwd w) as [err|p]; [| discriminate].
  intros _. now exists err.
Qed.

(** C4, as the code has it.  [find_path] is a total function: the parent
    of a path is strictly shorter than the path unless it is the path
    itself, where the ascent stops.  A run from [p] makes [n] recursive
    calls with [n] at most the depth of [p], and at most one more when [p]
    is written with a trailing separator. *)
Theorem find_path_steps_bounded
        (w : world) (name : string) (path : option string) (p : string) :
  start_of path w = Some p ->
  (forall q, dirname q <> q -> String.length (dirname q) < String.length q) /\
  exists r w' evs n,
    find_path name path w = (r, w') /\
    performed w w' evs /\
    count_listdir evs = S n /\
    n <= depth p + trailing p.
Proof.
  intros Hstart. split; [exact DirnameShorter.dirname_shorter |].
  rewrite (find_path_start name path p w Hstart).
  destruct (find_path_at_effects name p w) as (dirs & Hw & Hlen).
  destruct (find_path_at name p w) as [r w'] eqn:E. simpl in Hw.
  exists r, w', (map EvListdir dirs ++ found_line name r),
         (Nat.pred (List.length dirs)).
  split; [reflexivity |]. split; [subst w'; apply performed_log_all |].
  pose proof (ascents_bound_le p). split; [| lia].
  rewrite count_listdir_app, count_listdir_map.
  assert (count_listdir (found_line name r) = 0)
    by (destruct r as [[pn|]|e]; reflexivity).
  lia.
Qed.

Lemma find_path_steps_bounded_witness :
  let w := world_of tree_a "/" in
  start_of (Some "/a/"%string) w = Some "/a/"%string /\
  (forall q, dirname q <> q -> String.length (dirname q) < String.length q) /\
  exists r w' evs n,
    find_path "x" (Some "/a/"%string) w = (r, w') /\
    performed w w' evs /\
    count_listdir evs = S n /\
    n <= depth "/a/" + trailing "/a/".
Proof.
  intros w. split; [reflexivity |].
  apply (find_path_steps_bounded w "x" (Some "/a/"%string) "/a/").
  reflexivity.
Defined.

(** C4, as stated, fails for a start path with a trailing separator: from
    [/a/], of depth 1, [find_path] lists [/a/], [/a] and [/], which are two
    recursive calls. *)
Lemma find_path_steps_exceed_depth :
  let w := world_of tree_a "/" in
  let run := find_path "x" (Some "/a/"%string) w in
  fst run = Ok None /\
  w_log (snd run) = [EvListdir "/a/"; EvListdir "/a"; EvListdir "/"] /\
  depth "/a/" = 1 /\
  ~ (count_listdir (w_log (snd run)) <= S (depth "/a/")).
Proof.
  vm_compute. repeat split; try reflexivity. intros H.
  apply Nat.succ_le_mono, Nat.succ_le_mono in H. inversion H.
Qed.

(** C8, as the code has it.  [find_path] leaves the directory tree, the
    working directory and [sys.path] as they are; it lists directories and,
    when it returns a path, it then prints one line, [<name> found: <path>].
    It performs nothing else. *)
Theorem find_path_effects
        (w : world) (name : string) (path : option string) :
  same_environment w (snd (find_path name path w)) /\
  exists dirs,
    performed w (snd (find_path name path w))
              (map EvListdir dirs ++
               found_line name (fst (find_path name path w))).
Proof.
  destruct (start_of path w) as [p|] eqn:Hstart.
  - rewrite (find_path_start name path p w Hstart).
    destruct (find_path_at_effects name p w) as (dirs & -> & _).
    split; [apply same_environment_log_all |].
    exists dirs. apply performed_log_all.
  - destruct path as [q|]; [discriminate |].
    destruct (find_path_getcwd_fails name w Hstart) as (err & ->).
    split; [repeat split |]. exists []. simpl. unfold performed.
    now rewrite app_nil_r.
Qed.

(** C8, as stated, fails: a successful search writes to standard output. *)
Lemma find_path_prints_on_success :
  let w := world_of tree_abc "/a/b/c" in
  let run := find_path "target.yaml" None w in
  fst run = Ok (Some "/a/b/target.yaml"%string) /\
  printed (w_log w) = [] /\
  printed (w_log (snd run)) = ["target.yaml found: /a/b/target.yaml"%string].
Proof. vm_compute. repeat split. Qed.

End FindPathEffects.

(** ** Result extraction *)

Module ExtractionFacts.
Import Py Script Observe Worlds.

(** The two access paths of [get_value_at_index], one call deep. *)
Lemma get_value_at_index_unfold (obj : value) (index : Z) (w : world) :
  get_value_at_index obj index w =
  let w1 := log (EvGetitem obj (KInt index)) w in
  match subscript obj (KInt index) with
  | Ok v => (Ok v, w1)
  | Raise e =>
      if is_KeyError e then
        let w2 := log (EvGetitem obj (KStr "result")) w1 in
        match subscript obj (KStr "result") with
        | Ok result =>
            (subscript result (KInt index),
             log (EvGetitem result (KInt index)) w2)
        | Raise e' => (Raise e', w2)
        end
      else (Raise e, w1)
  end.
Proof.
  unfold get_value_at_index, try_except, bind, getitem. simpl.
  destruct (subscript obj (KInt index)) as [v|e]; [reflexivity |].
  destruct (is_KeyError e); [| reflexivity].
  destruct (subscript obj (KStr "result")); reflexivity.
Qed.

Lemma seq_index_in_range {A} (l : list A) (i : Z) :
  (- Z.of_nat (List.length l) <= i < Z.of_nat (List.length l))%Z ->
  exists v, nth_error l (position (Z.of_nat (List.length l)) i) = Some v /\
            seq_index l i = Some v.
Proof.
  intros Hi. unfold seq_index, position.
  set (n := Z.of_nat (List.length l)) in *.
  set (j := if (i <? 0)%Z then (i + n)%Z else i).
  assert (Hj : (0 <= j < n)%Z).
  { unfold j. destruct (i <? 0)%Z eqn:E;
      [apply Z.ltb_lt in E | apply Z.ltb_ge in E]; lia. }
  replace ((0 <=? j)%Z && (j <? n)%Z) with true
    by (symmetry; apply andb_true_intro; split;
        [apply Z.leb_le | apply Z.ltb_lt]; lia).
  destruct (nth_error l (Z.to_nat j)) as [v|] eqn:E.
  - now exists v.
  - apply nth_error_None in E. lia.
Qed.

Lemma seq_index_map {A B} (f : A -> B) (l : list A) (i : Z) :
  seq_index (map f l) i = option_map f (seq_index l i).
Proof.
  unfold seq_index. rewrite length_map.
  destruct (_ && _); [apply nth_error_map | reflexivity].
Qed.

(** Positional access to a sequence value is [seq_index] on its items. *)
Lemma subscript_sequence (obj : value) (items : list value) (i : Z) :
  sequence_items obj = Some items ->
  subscript obj (KInt i) =
  match seq_index items i with
  | Some v => Ok v
  | None => Raise IndexError
  end.
Proof.
  destruct obj; simpl; try discriminate; intros [= <-]; try reflexivity.
  rewrite seq_index_map. now destruct (seq_index _ i).
Qed.

(** C5. For a sequence and an index in range, [get_value_at_index] returns
    the element at that position (a negative index counts from the end).
    For an object whose positional access fails with [KeyError], it returns
    what [obj["result"][index]] evaluates to: the element at that position
    of the value stored under ["result"]. *)
Theorem get_value_at_index_element (obj : value) (index : Z) (w : world) :
  (forall items,
      sequence_items obj = Some items ->
      (- Z.of_nat (List.length items) <= index < Z.of_nat (List.length items))%Z ->
      exists v,
        nth_error items (position (Z.of_nat (List.length items)) index)
        = Some v /\
        fst (get_value_at_index obj index w) = Ok v) /\
  (forall k,
      subscript obj (KInt index) = Raise (KeyError k) ->
      fst (get_value_at_index obj index w) = fallback obj index /\
      forall result v,
        subscript obj (KStr "result") = Ok result ->
        subscript result (KInt index) = Ok v ->
        fst (get_value_at_index obj index w) = Ok v).
Proof.
  split.
  - intros items Hseq Hi.
    destruct (seq_index_in_range items index Hi) as (v & Hnth & Hidx).
    exists v. split; [exact Hnth |].
    rewrite get_value_at_index_unfold, (subscript_sequence obj items index Hseq).
    now rewrite Hidx.
  - intros k Hk.
    assert (Hfb : fst (get_value_at_index obj index w) = fallback obj index).
    { rewrite get_value_at_index_unfold, Hk. unfold fallback. simpl.
      now destruct (subscript obj (KStr "result")). }
    split; [exact Hfb |].
    intros result v Hres Hv. rewrite Hfb. unfold fallback. now rewrite Hres.
Qed.

Lemma get_value_at_index_element_witness :
  let w := world_of [] "/" in
  (exists v,
      nth_error [VObject 1; VObject 2] (position 2 1) = Some v /\
      fst (get_value_at_index tuple_result 1 w) = Ok v) /\
  fst (get_value_at_index dict_result 1 w) = Ok (VObject 2).
Proof.
  intros w. split.
  - apply (proj1 (get_value_at_index_element tuple_result 1 w)
                 [VObject 1; VObject 2]).
    + reflexivity.
    + simpl. lia.
  - apply (proj2 (proj2 (get_value_at_index_element dict_result 1 w)
                        (KInt 1) eq_refl)
                 tuple_result (VObject 2)); reflexivity.
Defined.

(** C6. When the positional access fails and [obj["result"][index]] fails
    as well, [get_value_at_index] raises: the error of the fallback when
    the first one was a [KeyError], the first error otherwise.  No value is
    returned in its place. *)
Theorem get_value_at_index_failure_propagates
        (obj : value) (index : Z) (w : world) (e e' : exn) :
  subscript obj (KInt index) = Raise e ->
  fallback obj index = Raise e' ->
  fst (get_value_at_index obj index w)
  = Raise (if is_KeyError e then e' else e) /\
  forall v, fst (get_value_at_index obj index w) <> Ok v.
Proof.
  intros He He'.
  assert (H : fst (get_value_at_index obj index w)
              = Raise (if is_KeyError e then e' else e)).
  { rewrite get_value_at_index_unfold, He. simpl.
    destruct (is_KeyError e); [| reflexivity].
    unfold fallback in He'.
    destruct (subscript obj (KStr "result")) as [result|e2]; simpl.
    - exact He'.
    - congruence. }
  split; [exact H |]. intros v. rewrite H. discriminate.
Qed.

Lemma get_value_at_index_failure_propagates_witness :
  let w := world_of [] "/" in
  let obj := VDict [(KStr "result", tuple_result)] in
  subscript obj (KInt 5) = Raise (KeyError (KInt 5)) /\
  fallback obj 5 = Raise IndexError /\
  fst (get_value_at_index obj 5 w) = Raise IndexError /\
  forall v, fst (get_value_at_index obj 5 w) <> Ok v.
Proof.
  intros w obj. split; [reflexivity |]. split; [reflexivity |].
  apply (get_value_at_index_failure_propagates
           obj 5 w (KeyError (KInt 5)) IndexError); reflexivity.
Defined.

(** C9. A dictionary that has the integer [index] among its keys yields
    [obj[index]] after that single subscription.  Whenever the positional
    access does not fail with [KeyError], it is the only subscription made
    and its outcome is the outcome of the call; so a sequence indexed out
    of range raises [IndexError] and ["result"] is never looked up. *)
Theorem get_value_at_index_direct_first
        (obj : value) (index : Z) (w : world) :
  let direct := (subscript obj (KInt index),
                 log (EvGetitem obj (KInt index)) w) in
  (forall items v,
      obj = VDict items -> dict_get items (KInt index) = Some v ->
      get_value_at_index obj index w = direct /\ fst direct = Ok v) /\
  ((forall k, subscript obj (KInt index) <> Raise (KeyError k)) ->
      get_value_at_index obj index w = direct) /\
  (forall items,
      sequence_items obj = Some items -> seq_index items index = None ->
      get_value_at_index obj index w = direct /\ fst direct = Raise IndexError) /\
  (forall evs,
      performed w (snd (get_value_at_index obj index w)) evs ->
      In (obj, KStr "result"%string) (subscripted evs) ->
      exists k, subscript obj (KInt index) = Raise (KeyError k)).
Proof.
  intros direct.
  assert (Hdirect : (forall k, subscript obj (KInt index) <> Raise (KeyError k)) ->
                    get_value_at_index obj index w = direct).
  { intros Hnk. rewrite get_value_at_index_unfold. unfold direct. simpl.
    destruct (subscript obj (KInt index)) as [v|e]; [reflexivity |].
    destruct e; try reflexivity. now destruct (Hnk k). }
  split; [| split; [exact Hdirect | split]].
  - intros items v -> Hget.
    assert (Hs : subscript (VDict items) (KInt index) = Ok v)
      by (simpl; now rewrite Hget).
    split; [| exact Hs]. apply Hdirect. intros k. rewrite Hs. discriminate.
  - intros items Hseq Hnone.
    assert (Hs : subscript obj (KInt index) = Raise IndexError)
      by (rewrite (subscript_sequence obj items index Hseq); now rewrite Hnone).
    split; [| exact Hs]. apply Hdirect. intros k. rewrite Hs. discriminate.
  - intros evs Hperf Hin.
    assert (Hcases : (exists k, subscript obj (KInt index) = Raise (KeyError k)) \/
                     forall k, subscript obj (KInt index) <> Raise (KeyError k)).
    { destruct (subscript obj (KInt index)) as [v|[k| | | |]];
        try (right; intros k'; discriminate).
      left. now exists k. }
    destruct Hcases as [Hk|Hnk]; [exact Hk | exfalso].
    rewrite (Hdirect Hnk) in Hperf. unfold performed, direct in Hperf.
    simpl in Hperf. apply app_inv_head in Hperf. subst evs.
    simpl in Hin. destruct Hin as [Hin|[]]. discriminate Hin.
Qed.

Lemma get_value_at_index_direct_first_witness :
  let w := world_of [] "/" in
  let obj := VDict [(KInt 0, VObject 7); (KStr "result", tuple_result)] in
  dict_get [(KInt 0, VObject 7); (KStr "result", tuple_result)] (KInt 0)
  = Some (VObject 7) /\
  get_value_at_index obj 0 w
  = (subscript obj (KInt 0), log (EvGetitem obj (KInt 0)) w) /\
  fst (subscript obj (KInt 0), log (EvGetitem obj (KInt 0)) w)
  = Ok (VObject 7) /\
  subscripted (w_log (snd (get_value_at_index obj 0 w))) = [(obj, KInt 0)].
Proof.
  intros w obj. split; [reflexivity |].
  destruct (proj1 (get_value_at_index_direct_first obj 0 w)
                  [(KInt 0, VObject 7); (KStr "result", tuple_result)]
                  (VObject 7) eq_refl eq_refl) as [Hrun Hval].
  split; [exact Hrun |]. split; [exact Hval |].
  rewrite Hrun. reflexivity.
Defined.

End ExtractionFacts.

(** ** Start-up: the two lookups of the script *)

Module StartupFacts.
Import PosixPath Py Script Observe Worlds LogFacts AncestorFacts FindPathFacts.
Import FindPathResults.

Lemma absent_at_log_all (evs : list event) (w : world) (name p : string) :
  (forall k, absent_at w name p k) ->
  forall k, absent_at (log_all evs w) name p k.
Proof.
  intros H k. unfold absent_at. rewrite w_listdir_log_all. exact (H k).
Qed.

(** A search from the working directory that finds nothing, in a world
    that differs from [w] by its log only. *)
Lemma find_path_cwd_not_found (evs : list event) (w : world)
      (name cwd : string) :
  w_getcwd w = inr cwd ->
  (forall k, absent_at w name cwd k) ->
  exists dirs,
    find_path name None (log_all evs w)
    = (Ok None, log_all (evs ++ map EvListdir dirs) w).
Proof.
  intros Hcwd Habs.
  assert (Hstart : start_of None (log_all evs w) = Some cwd).
  { unfold start_of.
    destruct (same_environment_log_all evs w) as (_ & _ & -> & _).
    now rewrite Hcwd. }
  rewrite (find_path_start name None cwd _ Hstart).
  destruct (find_path_at_not_found name cwd (log_all evs w)
              (absent_at_log_all evs w name cwd Habs)) as (dirs & ->).
  exists dirs. now rewrite log_all_app.
Qed.

Section NotFound.

Variable main_load utils_load : string -> M unit.

(** C7, as the code has it.  A lookup that finds nothing is not an error.
    Without [ComfyUI], [add_comfyui_directory_to_sys_path] returns normally,
    leaves [sys.path] as it is and prints nothing.  Without
    [extra_model_paths.yaml], and with [load_extra_path_config] importable
    from [main] or from [utils.extra_config], [add_extra_model_paths]
    returns normally and the last line it prints reports the missing
    file. *)
Theorem path_not_found_is_not_fatal (w : world) (cwd : string) :
  w_getcwd w = inr cwd ->
  ((forall k, absent_at w "ComfyUI" cwd k) ->
   exists w' evs,
     add_comfyui_directory_to_sys_path w = (Ok tt, w') /\
     same_environment w w' /\ performed w w' evs /\ printed evs = []) /\
  ((forall k, absent_at w "extra_model_paths.yaml" cwd k) ->
   w_importable w (w_sys_path w) "main" = true \/
   w_importable w (w_sys_path w) "utils.extra_config" = true ->
   exists w' evs,
     add_extra_model_paths main_load utils_load w = (Ok tt, w') /\
     same_environment w w' /\ performed w w' evs /\
     last (printed evs) ""%string
     = "Could not find the extra_model_paths config file."%string).
Proof.
  intros Hcwd. split.
  - intros Habs.
    destruct (find_path_cwd_not_found [] w "ComfyUI" cwd Hcwd Habs)
      as (dirs & Hrun).
    simpl in Hrun. unfold add_comfyui_directory_to_sys_path, bind.
    rewrite Hrun. exists (log_all (map EvListdir dirs) w), (map EvListdir dirs).
    split; [reflexivity |]. split; [apply same_environment_log_all |].
    split; [apply performed_log_all | apply printed_map_listdir].
  - intros Habs Himp.
    unfold add_extra_model_paths, bind at 1, try_except, bind, import_module,
      ret, print.
    set (warn := EvPrint "Could not import load_extra_path_config from main.py. Looking in utils.extra_config instead.").
    set (miss := EvPrint "Could not find the extra_model_paths config file.").
    destruct (w_importable w (w_sys_path w) "main") eqn:Hmain.
    + destruct (find_path_cwd_not_found [] w "extra_model_paths.yaml" cwd
                  Hcwd Habs) as (dirs & Hrun).
      simpl in Hrun. rewrite Hrun.
      exists (log_all (map EvListdir dirs ++ [miss]) w),
             (map EvListdir dirs ++ [miss]).
      split; [now rewrite log_all_app |].
      split; [apply same_environment_log_all |].
      split; [apply performed_log_all |].
      now rewrite printed_app, printed_map_listdir.
    + destruct Himp as [Himp|Himp]; [discriminate |].
      cbn [is_ImportError].
      change (w_importable (log warn w) (w_sys_path (log warn w)))
        with (w_importable w (w_sys_path w)).
      rewrite Himp.
      destruct (find_path_cwd_not_found [warn] w "extra_model_paths.yaml" cwd
                  Hcwd Habs) as (dirs & Hrun).
      change (log_all [warn] w) with (log warn w) in Hrun. rewrite Hrun.
      exists (log_all (([warn] ++ map EvListdir dirs) ++ [miss]) w),
             (([warn] ++ map EvListdir dirs) ++ [miss]).
      split; [now rewrite (log_all_app (_ ++ _) [miss]) |].
      split; [apply same_environment_log_all |].
      split; [apply performed_log_all |].
      rewrite !printed_app, printed_map_listdir. reflexivity.
Qed.

End NotFound.

Lemma path_not_found_is_not_fatal_witness :
  let w := world_with_main in
  let load := fun _ : string => ret tt in
  w_getcwd w = inr "/a/b/c"%string /\
  (exists w' evs,
     add_comfyui_directory_to_sys_path w = (Ok tt, w') /\
     same_environment w w' /\ performed w w' evs /\ printed evs = []) /\
  (exists w' evs,
     add_extra_model_paths load load w = (Ok tt, w') /\
     same_environment w w' /\ performed w w' evs /\
     last (printed evs) ""%string
     = "Could not find the extra_model_paths config file."%string).
Proof.
  intros w load. split; [reflexivity |].
  destruct (path_not_found_is_not_fatal load load w "/a/b/c" eq_refl)
    as [Hcomfy Hextra].
  split.
  - apply Hcomfy. apply absent_abc. reflexivity.
  - apply Hextra.
    + apply absent_abc. reflexivity.
    + left. reflexivity.
Defined.

(** C7, as stated, fails for the installation directory: when [ComfyUI] is
    not found, nothing is logged. *)
Lemma comfyui_not_found_is_not_logged :
  let w := world_of tree_abc "/a/b/c" in
  fst (find_path "ComfyUI" None w) = Ok None /\
  fst (add_comfyui_directory_to_sys_path w) = Ok tt /\
  printed (w_log (snd (add_comfyui_directory_to_sys_path w))) = [].
Proof. vm_compute. repeat split. Qed.

(** Where the framework is importable neither from [sys.path] as it stands
    nor through a [ComfyUI] directory found on the way up, the start-up of
    the script ends with an [ImportError]. *)
Remark script_prelude_without_framework (load : string -> M unit) :
  fst (script_prelude load load (world_of tree_abc "/a/b/c"))
  = Raise (ImportError "utils.extra_config").
Proof. reflexivity. Qed.

End StartupFacts.

(** ** Worked examples *)

Module Examples.
Import PosixPath Py Script Observe Worlds.

Example dirname_nested : dirname "/a/b/c" = "/a/b"%string.
Proof. reflexivity. Qed.

Example dirname_of_root : dirname "/" = "/"%string.
Proof. reflexivity. Qed.

Example dirname_two_separators : dirname "//" = "//"%string.
Proof. reflexivity. Qed.

Example dirname_trailing_separator : dirname "/a/b/" = "/a/b"%string.
Proof. reflexivity. Qed.

Example dirname_inner_separators : dirname "/a//b" = "/a"%string.
Proof. reflexivity. Qed.

Example dirname_relative : dirname "a" = ""%string.
Proof. reflexivity. Qed.

Example join_directory : join "/a/b" "target.yaml" = "/a/b/target.yaml"%string.
Proof. reflexivity. Qed.

Example join_at_root : join "/" "x" = "/x"%string.
Proof. reflexivity. Qed.

Example depth_nested : depth "/a/b/c" = 3.
Proof. reflexivity. Qed.

(** From [/a/b/c], with [/a/b/target.yaml] present, the resolver returns
    [/a/b/target.yaml]. *)
Example find_target_from_abc :
  find_path "target.yaml" None (world_of tree_abc "/a/b/c")
  = (Ok (Some "/a/b/target.yaml"%string),
     log_all [EvListdir "/a/b/c"; EvListdir "/a/b";
              EvPrint "target.yaml found: /a/b/target.yaml"]
             (world_of tree_abc "/a/b/c")).
Proof. reflexivity. Qed.

(** A name absent from [/a/b/c] up to [/] gives [None]. *)
Example find_absent_from_abc :
  find_path "missing" None (world_of tree_abc "/a/b/c")
  = (Ok None,
     log_all [EvListdir "/a/b/c"; EvListdir "/a/b"; EvListdir "/a";
              EvListdir "/"]
             (world_of tree_abc "/a/b/c")).
Proof. reflexivity. Qed.

(** The two shapes of a node result give the same element. *)
Example extract_from_tuple :
  fst (get_value_at_index tuple_result 0 (world_of [] "/")) = Ok (VObject 1).
Proof. reflexivity. Qed.

Example extract_from_dict :
  fst (get_value_at_index dict_result 0 (world_of [] "/")) = Ok (VObject 1).
Proof. reflexivity. Qed.

(** A dictionary without ["result"] raises the [KeyError] of the fallback. *)
Example extract_without_result :
  fst (get_value_at_index (VDict [(KStr "results", tuple_result)]) 0
                          (world_of [] "/"))
  = Raise (KeyError (KStr "result")).
Proof. reflexivity. Qed.

End Examples.

(* ===================================================================== *)
(** * Further properties of the code *)
(* ===================================================================== *)

(** ** What an outcome of [find_path] tells about the directory tree *)

Module FindPathConverse.
Import PyStr PosixPath Py Script Observe Worlds LogFacts AncestorFacts.
Import FindPathFacts FindPathResults Endings.

Lemma absent_at_child (w : world) (name p : string) (ev : event) (k : nat) :
  absent_at w name p 0 ->
  (forall j, j < k -> absent_at (log ev w) name (dirname p) j) ->
  forall j, j < S k -> absent_at w name p j.
Proof.
  intros H0 H [|j] Hj; [exact H0 |].
  specialize (H j (proj2 (Nat.succ_lt_mono j k) Hj)).
  unfold absent_at in *. now rewrite <- ancestor_dirname.
Qed.

Lemma ending_child (w : world) (name p : string) (ev : event) (k : nat)
      (r : outcome (option string)) :
  ending (log ev w) name (dirname p) k r -> ending w name p (S k) r.
Proof.
  intros H. destruct H as [Hp|err Hl|Ha Hfix].
  - rewrite ancestor_dirname. apply EndFound.
    unfold present_at in *. now rewrite <- ancestor_dirname.
  - rewrite ancestor_dirname. apply EndError.
    now rewrite <- ancestor_dirname.
  - apply EndRoot.
    + unfold absent_at in *. now rewrite <- ancestor_dirname.
    + now rewrite <- !(ancestor_dirname _ p).
Qed.

(** Every run ends in one of the three ways, after ancestors that all
    lack the name. *)
Lemma find_path_at_ending (name path : string) :
  forall w,
  exists k,
    (forall j, j < k -> absent_at w name path j) /\
    ending w name path k (fst (find_path_at name path w)).
Proof.
  induction path as [path IH] using ascent_ind. intros w.
  rewrite find_path_at_unfold.
  destruct (w_listdir w path) as [err|entries] eqn:Hl.
  { exists 0. split; [intros j Hj; lia |]. now apply (EndError w name path 0). }
  destruct (str_in name entries) eqn:Hin.
  { exists 0. split; [intros j Hj; lia |].
    apply (EndFound w name path 0). now exists entries. }
  assert (H0 : absent_at w name path 0) by now exists entries.
  destruct (string_dec (dirname path) path) as [Heq|Hne].
  { exists 0. split; [intros j Hj; lia |]. now apply EndRoot. }
  destruct (IH Hne (log (EvListdir path) w)) as (k & Habs & Hend).
  exists (S k). split.
  - now apply (absent_at_child w name path (EvListdir path) k).
  - now apply (ending_child w name path (EvListdir path)).
Qed.

(** At the root every further ancestor is the root. *)
Lemma absent_everywhere (w : world) (name p : string) (k : nat) :
  (forall j, j < k -> absent_at w name p j) ->
  absent_at w name p k ->
  ancestor (S k) p = ancestor k p ->
  forall m, absent_at w name p m.
Proof.
  intros Hbelow Hk Hfix m.
  destruct (Nat.lt_ge_cases m k) as [Hlt|Hge]; [now apply Hbelow |].
  unfold absent_at. rewrite (ancestor_fixed k m p Hfix Hge). exact Hk.
Qed.

Lemma find_path_start_none (name : string) (path : option string)
      (w : world) :
  start_of path w = None ->
  path = None /\
  exists err,
    w_getcwd w = inl err /\
    find_path name path w = (Raise (OSError err ""), w).
Proof.
  unfold start_of, find_path, bind, getcwd.
  destruct path as [q|]; [discriminate |].
  destruct (w_getcwd w) as [err|p]; [| discriminate].
  intros _. split; [reflexivity |]. now exists err.
Qed.

(** X1. A path returned by [find_path] is sound: it is the join of the
    name with an ancestor of the start whose child list has the name, and
    no closer ancestor has it. *)
Theorem find_path_some_sound
        (w : world) (name : string) (path : option string) (r : string) :
  fst (find_path name path w) = Ok (Some r) ->
  exists p k,
    start_of path w = Some p /\
    present_at w name p k /\
    (forall j, j < k -> absent_at w name p j) /\
    r = join (ancestor k p) name.
Proof.
  intros Hr. destruct (start_of path w) as [p|] eqn:Hstart.
  - rewrite (find_path_start name path p w Hstart) in Hr.
    destruct (find_path_at_ending name p w) as (k & Habs & Hend).
    rewrite Hr in Hend. exists p, k.
    inversion Hend as [Hp Heq| |]; subst. now repeat split.
  - destruct (find_path_start_none name path w Hstart) as (_ & err & _ & E).
    rewrite E in Hr. discriminate.
Qed.

Lemma find_path_some_sound_witness :
  let w := world_of tree_abc "/a/b/c" in
  fst (find_path "target.yaml" None w) = Ok (Some "/a/b/target.yaml"%string) /\
  exists p k,
    start_of None w = Some p /\
    present_at w "target.yaml" p k /\
    (forall j, j < k -> absent_at w "target.yaml" p j) /\
    "/a/b/target.yaml"%string = join (ancestor k p) "target.yaml".
Proof.
  intros w. split; [reflexivity |].
  apply (find_path_some_sound w "target.yaml" None "/a/b/target.yaml").
  reflexivity.
Defined.

(** X2. [None] is returned only when the search was complete: the start
    directory and every ancestor up to the root could be listed and none
    has the name. *)
Theorem find_path_none_complete
        (w : world) (name : string) (path : option string) :
  fst (find_path name path w) = Ok None ->
  exists p,
    start_of path w = Some p /\ forall k, absent_at w name p k.
Proof.
  intros Hr. destruct (start_of path w) as [p|] eqn:Hstart.
  - rewrite (find_path_start name path p w Hstart) in Hr.
    destruct (find_path_at_ending name p w) as (k & Habs & Hend).
    rewrite Hr in Hend. exists p. split; [reflexivity |].
    inversion Hend as [| |Ha Hfix]; subst.
    now apply (absent_everywhere w name p k).
  - destruct (find_path_start_none name path w Hstart) as (_ & err & _ & E).
    rewrite E in Hr. discriminate.
Qed.

Lemma find_path_none_complete_witness :
  let w := world_of tree_abc "/a/b/c" in
  fst (find_path "ComfyUI" None w) = Ok None /\
  exists p,
    start_of None w = Some p /\ forall k, absent_at w "ComfyUI" p k.
Proof.
  intros w. split; [reflexivity |].
  apply (find_path_none_complete w "ComfyUI" None). reflexivity.
Defined.



End FindPathConverse.

(** ** The result of [find_path] depends on the directory tree only *)

Module FindPathFrame.
Import PyStr PosixPath Py Script Observe Worlds LogFacts AncestorFacts.
Import FindPathFacts FindPathResults Endings FindPathConverse Installation.

(** The way a run ends fixes its outcome. *)
Lemma ending_determines (w : world) (name p : string) (k : nat)
      (r : outcome (option string)) :
  (forall j, j < k -> absent_at w name p j) ->
  ending w name p k r ->
  fst (find_path_at name p w) = r.
Proof.
  intros Habs [Hp|err Hl|Ha Hfix].
  - now rewrite (find_path_at_found k name p w Habs Hp).
  - now rewrite (find_path_at_raises k name p w err Habs Hl).
  - destruct (find_path_at_not_found name p w
                (absent_everywhere w name p k Habs Ha Hfix)) as (dirs & ->).
    reflexivity.
Qed.

Lemma absent_at_ext (w1 w2 : world) (name p : string) (k : nat) :
  (forall q, w_listdir w1 q = w_listdir w2 q) ->
  absent_at w1 name p k -> absent_at w2 name p k.
Proof. intros Hl (entries & H & Hin). exists entries. now rewrite <- Hl. Qed.

Lemma ending_ext (w1 w2 : world) (name p : string) (k : nat)
      (r : outcome (option string)) :
  (forall q, w_listdir w1 q = w_listdir w2 q) ->
  ending w1 name p k r -> ending w2 name p k r.
Proof.
  intros Hl [(entries & H & Hin)|err H|Ha Hfix].
  - apply EndFound. exists entries. now rewrite <- Hl.
  - apply EndError. now rewrite <- Hl.
  - apply EndRoot; [now apply (absent_at_ext w1 w2) | exact Hfix].
Qed.

(** X4. What [find_path] returns or raises depends on the child lists
    and, when no start path is given, on the working directory only: two
    states of the process that agree on them, whatever their [sys.path],
    importable modules and history, give the same outcome. *)
Theorem find_path_depends_on_tree_only
        (w1 w2 : world) (name : string) (path : option string) :
  (forall q, w_listdir w1 q = w_listdir w2 q) ->
  (path = None -> w_getcwd w1 = w_getcwd w2) ->
  fst (find_path name path w1) = fst (find_path name path w2).
Proof.
  intros Hl Hcwd.
  assert (Hstart : start_of path w1 = start_of path w2)
    by (unfold start_of; destruct path; [| rewrite Hcwd]; reflexivity).
  destruct (start_of path w1) as [p|] eqn:H1; symmetry in Hstart.
  - rewrite (find_path_start name path p w1 H1).
    rewrite (find_path_start name path p w2 Hstart).
    destruct (find_path_at_ending name p w1) as (k & Habs & Hend).
    symmetry. apply (ending_determines w2 name p k).
    + intros j Hj. apply (absent_at_ext w1 w2); auto.
    + now apply (ending_ext w1 w2).
  - destruct (find_path_start_none name path w1 H1) as (Hnone & e1 & Hc1 & ->).
    destruct (find_path_start_none name path w2 Hstart) as (_ & e2 & Hc2 & ->).
    specialize (Hcwd Hnone). simpl. congruence.
Qed.

Lemma find_path_depends_on_tree_only_witness :
  let w1 := world_of tree_comfy "/home/work" in
  let w2 := world_comfy tree_comfy in
  (forall q, w_listdir w1 q = w_listdir w2 q) /\
  w_getcwd w1 = w_getcwd w2 /\
  w_sys_path w1 <> w_sys_path w2 /\
  fst (find_path "ComfyUI" None w1) = fst (find_path "ComfyUI" None w2).
Proof.
  intros w1 w2.
  assert (Hl : forall q, w_listdir w1 q = w_listdir w2 q) by reflexivity.
  split; [exact Hl |]. split; [reflexivity |]. split; [discriminate |].
  apply (find_path_depends_on_tree_only w1 w2 "ComfyUI" None Hl).
  intros _. reflexivity.
Defined.

End FindPathFrame.

(** ** Joining and taking the parent *)

Module JoinFacts.
Import PyStr PosixPath PathShape DirnameShorter DepthFacts.
Local Open Scope string_scope.

Lemma append_assoc (a b c : string) : (a ++ b) ++ c = a ++ (b ++ c).
Proof. induction a as [|x a IH]; simpl; [reflexivity | now rewrite IH]. Qed.

Lemma contains_app (c : ascii) (a b : string) :
  contains c (a ++ b) = contains c a || contains c b.
Proof.
  induction a as [|x a IH]; simpl; [reflexivity |].
  now rewrite IH, orb_assoc.
Qed.

Lemma endswith_contains (c : ascii) (h : string) :
  endswith c h = true -> contains c h = true.
Proof.
  induction h as [|x h IH]; [discriminate |].
  destruct h as [|y h].
  - simpl. intros ->. reflexivity.
  - intros H. change (contains c (String x (String y h)))
      with (Ascii.eqb x c || contains c (String y h)).
    rewrite (IH H). apply orb_true_r.
Qed.

(** The head of a path is determined by its last component. *)
Lemma head_app (h t : string) :
  contains sep t = false ->
  h = "" \/ endswith sep h = true ->
  head (h ++ t) = h.
Proof.
  intros Ht [->|He]; [now apply head_no_sep |].
  induction h as [|x h IH]; [discriminate |].
  change (String x h ++ t) with (String x (h ++ t)). rewrite head_cons.
  destruct (nonempty h) eqn:Hn.
  - assert (He' : endswith sep h = true)
      by (destruct h; [discriminate | exact He]).
    rewrite contains_app, (endswith_contains sep h He'). simpl.
    now rewrite (IH He').
  - apply nonempty_false in Hn. subst h. simpl in *. rewrite Ht.
    unfold is_sep. now rewrite He.
Qed.

Lemma rstrip_app_sep (d : string) :
  rstrip sep (d ++ String sep "") = rstrip sep d.
Proof.
  induction d as [|x d IH]; [reflexivity |].
  change (String x d ++ String sep "") with (String x (d ++ String sep "")).
  cbn [rstrip]. now rewrite IH.
Qed.

Lemma rstrip_id (d : string) : endswith sep d = false -> rstrip sep d = d.
Proof.
  induction d as [|x d IH]; [reflexivity |]. intros He.
  destruct d as [|y d].
  - simpl in *. now rewrite He.
  - assert (He' : endswith sep (String y d) = false) by exact He.
    change (rstrip sep (String x (String y d)))
      with (match rstrip sep (String y d) with
            | EmptyString =>
                if Ascii.eqb x sep then EmptyString else String x EmptyString
            | t => String x t
            end).
    now rewrite (IH He').
Qed.

Lemma all_char_app (a b : string) :
  all_char sep (a ++ b) = all_char sep a && all_char sep b.
Proof.
  induction a as [|x a IH]; simpl; [reflexivity |].
  now rewrite IH, andb_assoc.
Qed.

Lemma all_char_endswith (d : string) :
  all_char sep d = true -> d = "" \/ endswith sep d = true.
Proof.
  induction d as [|x d IH]; [now left |].
  simpl. intros H. apply andb_prop in H as [Hx Hd]. right.
  destruct (IH Hd) as [->|He]; [exact Hx |].
  destruct d; [discriminate | exact He].
Qed.

Lemma all_char_no_sep (t : string) :
  all_char sep t = true -> contains sep t = false -> t = "".
Proof.
  destruct t as [|x t]; [reflexivity |]. simpl.
  intros H1 H2. apply andb_prop in H1 as [Hx _].
  rewrite Hx in H2. discriminate.
Qed.

Lemma endswith_app_sep (d : string) : endswith sep (d ++ String sep "") = true.
Proof.
  induction d as [|x d IH]; [reflexivity |].
  change (String x d ++ String sep "") with (String x (d ++ String sep "")).
  now apply endswith_cons.
Qed.

(** The parent of a joined path is the directory it was joined to. *)
Lemma dirname_join (d name : string) :
  contains sep name = false -> normal d -> dirname (join d name) = d.
Proof.
  intros Hname Hd.
  assert (Hstart : startswith sep name = false).
  { destruct name as [|x name]; [reflexivity |]. simpl in *.
    now apply orb_false_elim in Hname as [-> _]. }
  unfold join. rewrite Hstart.
  destruct (nonempty d) eqn:Hn; simpl negb; cbn [orb].
  - destruct (endswith sep d) eqn:He.
    + destruct Hd as [Hd|Hd]; [congruence |].
      unfold dirname. fold (head (d ++ name)).
      rewrite (head_app d name Hname (or_intror He)).
      now rewrite Hd, andb_false_r.
    + replace (d ++ String sep name) with ((d ++ String sep "") ++ name)
        by (now rewrite append_assoc).
      unfold dirname. fold (head ((d ++ String sep "") ++ name)).
      rewrite (head_app _ name Hname (or_intror (endswith_app_sep d))).
      assert (Hall : all_char sep (d ++ String sep "") = false).
      { rewrite all_char_app. destruct (all_char sep d) eqn:Ha; [| reflexivity].
        destruct (all_char_endswith d Ha) as [->|He']; [discriminate |].
        congruence. }
      rewrite Hall.
      replace (nonempty (d ++ String sep "")) with true
        by (destruct d; reflexivity).
      simpl. now rewrite rstrip_app_sep, rstrip_id.
  - apply nonempty_false in Hn. subst d. simpl.
    unfold dirname. fold (head name). now rewrite (head_no_sep name Hname).
Qed.

(** A parent is always written normally. *)
Lemma dirname_normal (q : string) : normal (dirname q).
Proof.
  unfold normal, dirname. fold (head q).
  destruct (nonempty (head q) && negb (all_char sep (head q))) eqn:Hc.
  - left. apply endswith_rstrip.
  - apply andb_false_iff in Hc as [Hn|Ha].
    + left. apply nonempty_false in Hn. now rewrite Hn.
    + right. now apply negb_false_iff.
Qed.

Lemma ancestor_normal (k : nat) (p : string) :
  normal p -> normal (ancestor k p).
Proof. destruct k; [auto | intros _; apply dirname_normal]. Qed.

Lemma rstrip_length (s : string) :
  String.length (rstrip sep s) <= String.length s.
Proof.
  destruct (rstrip_prefix sep s) as (t & Ht).
  rewrite Ht at 2. rewrite length_app. lia.
Qed.

(** The ascent stops exactly at the paths made of separators only, the
    empty path among them. *)
Lemma dirname_fixed_iff (p : string) :
  dirname p = p <-> all_char sep p = true.
Proof.
  destruct (head_split p) as (t & Hp & Ht & Hh).
  unfold dirname. fold (head p). split.
  - destruct (nonempty (head p) && negb (all_char sep (head p))) eqn:Hc.
    + intros Heq. exfalso.
      assert (Hlen : String.length t = 0).
      { pose proof (rstrip_length (head p)) as Hle.
        rewrite Heq in Hle. rewrite Hp in Hle at 1.
        rewrite length_app in Hle. lia. }
      destruct t; [| discriminate]. rewrite app_empty_r in Hp.
      apply andb_prop in Hc as [Hn _].
      destruct Hh as [Hh|Hh]; [rewrite Hh in Hn; discriminate |].
      pose proof (endswith_rstrip (head p)) as He.
      rewrite Heq, Hp in He. congruence.
    + intros Heq. rewrite Heq in Hc.
      apply andb_false_iff in Hc as [Hn|Ha].
      * apply nonempty_false in Hn. now rewrite Hn.
      * now apply negb_false_iff.
  - intros Hall.
    assert (Hhead : head p = p).
    { rewrite Hp in Hall. rewrite all_char_app in Hall.
      apply andb_prop in Hall as [_ Hta].
      rewrite (all_char_no_sep t Hta Ht), app_empty_r in Hp. now symmetry. }
    now rewrite Hhead, Hall, andb_false_r.
Qed.

End JoinFacts.

(** ** Where a found path lies and where the ascent stops *)

Module FindPathShape.
Import PyStr PosixPath PathShape Py Script Observe Worlds LogFacts.
Import AncestorFacts FindPathFacts FindPathResults Endings FindPathConverse.
Import FindPathEffects JoinFacts.

(** X5. For a start path without a separator after its last component and
    a name without separator, the parent of the path [find_path] returns is
    the directory in which the name was found: [os.path.dirname] undoes the
    [os.path.join] of the result. *)
Theorem find_path_result_parent
        (w : world) (name : string) (path : option string) (p r : string) :
  fst (find_path name path w) = Ok (Some r) ->
  start_of path w = Some p ->
  contains sep name = false ->
  normal p ->
  exists k, present_at w name p k /\ dirname r = ancestor k p.
Proof.
  intros Hr Hstart Hname Hp.
  rewrite (find_path_start name path p w Hstart) in Hr.
  destruct (find_path_at_ending name p w) as (k & _ & Hend).
  rewrite Hr in Hend. inversion Hend as [Hpres Heq| |]; subst.
  exists k. split; [exact Hpres |].
  apply dirname_join; [exact Hname | now apply ancestor_normal].
Qed.

Lemma find_path_result_parent_witness :
  let w := world_of tree_abc "/a/b/c" in
  fst (find_path "target.yaml" None w) = Ok (Some "/a/b/target.yaml"%string) /\
  start_of None w = Some "/a/b/c"%string /\
  contains sep "target.yaml" = false /\
  normal "/a/b/c" /\
  exists k,
    present_at w "target.yaml" "/a/b/c" k /\
    dirname "/a/b/target.yaml" = ancestor k "/a/b/c".
Proof.
  intros w.
  assert (Hn : normal "/a/b/c") by (left; reflexivity).
  split; [reflexivity |]. split; [reflexivity |]. split; [reflexivity |].
  split; [exact Hn |].
  apply (find_path_result_parent w "target.yaml" None "/a/b/c"
                                 "/a/b/target.yaml");
    [reflexivity | reflexivity | reflexivity | exact Hn].
Defined.

(** Every run begins by listing the directory it starts from. *)
Lemma find_path_at_lists_start (name path : string) (w : world) :
  exists evs,
    snd (find_path_at name path w) = log_all (EvListdir path :: evs) w.
Proof.
  rewrite find_path_at_unfold.
  destruct (w_listdir w path) as [err|entries]; [now exists [] |].
  destruct (str_in name entries); [now eexists [_] |].
  destruct (string_dec (dirname path) path) as [_|Hne]; [now exists [] |].
  destruct (find_path_at_effects name (dirname path) (log (EvListdir path) w))
    as (dirs & -> & _).
  eexists. reflexivity.
Qed.

(** X6. [find_path] takes a path for the root exactly when it consists of
    separators only, the empty path included.  Without a match there it
    returns [None] after that one listing; from any other path without a
    match it goes on and lists the parent next, so the ascent of a relative
    path reaches the empty path. *)
Theorem find_path_stops_at_separator_paths
        (w : world) (name p : string) (entries : list string) :
  w_listdir w p = inr entries ->
  str_in name entries = false ->
  (all_char sep p = true ->
   find_path name (Some p) w = (Ok None, log (EvListdir p) w)) /\
  (all_char sep p = false ->
   exists evs,
     performed w (snd (find_path name (Some p) w))
               (EvListdir p :: EvListdir (dirname p) :: evs)).
Proof.
  intros Hl Hin.
  rewrite (find_path_start name (Some p) p w eq_refl).
  rewrite find_path_at_unfold, Hl, Hin. split.
  - intros Hall. apply dirname_fixed_iff in Hall.
    destruct (string_dec (dirname p) p); [reflexivity | contradiction].
  - intros Hall. destruct (string_dec (dirname p) p) as [Heq|_].
    + apply dirname_fixed_iff in Heq. congruence.
    + destruct (find_path_at_lists_start name (dirname p) (log (EvListdir p) w))
        as (evs & ->).
      exists evs.
      exact (performed_log_all
               (EvListdir p :: EvListdir (dirname p) :: evs) w).
Qed.

Lemma find_path_stops_at_separator_paths_witness :
  let w := world_of [("work"%string, []); ("//"%string, [])] "/" in
  w_listdir w "work" = inr [] /\
  w_listdir w "//" = inr [] /\
  find_path "x" (Some "//"%string) w = (Ok None, log (EvListdir "//") w) /\
  exists evs,
    performed w (snd (find_path "x" (Some "work"%string) w))
              (EvListdir "work" :: EvListdir (dirname "work") :: evs).
Proof.
  intros w. split; [reflexivity |]. split; [reflexivity |]. split.
  - apply (proj1 (find_path_stops_at_separator_paths w "x" "//" []
                    eq_refl eq_refl)).
    reflexivity.
  - apply (proj2 (find_path_stops_at_separator_paths w "x" "work" []
                    eq_refl eq_refl)).
    reflexivity.
Defined.

End FindPathShape.

(** ** Result extraction: bounds, missing keys, wrapped results *)

Module ExtractionEdges.
Import Py Script Observe Worlds ExtractionFacts.

Lemma seq_index_out_of_range {A} (l : list A) (i : Z) :
  (i < - Z.of_nat (List.length l) \/ Z.of_nat (List.length l) <= i)%Z ->
  seq_index l i = None.
Proof.
  intros Hi. unfold seq_index.
  set (n := Z.of_nat (List.length l)) in *.
  destruct (i <? 0)%Z eqn:E;
    [apply Z.ltb_lt in E | apply Z.ltb_ge in E].
  - replace (0 <=? i + n)%Z with false; [reflexivity |].
    symmetry. apply Z.leb_gt. lia.
  - replace (i <? n)%Z with false; [now rewrite andb_false_r |].
    symmetry. apply Z.ltb_ge. lia.
Qed.

(** X7. On a list, tuple or str of length [n], [get_value_at_index] raises
    [IndexError] exactly for an index below [-n] or from [n] on; for any
    other index it returns a value. *)
Theorem get_value_at_index_index_error_iff
        (obj : value) (items : list value) (index : Z) (w : world) :
  sequence_items obj = Some items ->
  let n := Z.of_nat (List.length items) in
  (fst (get_value_at_index obj index w) = Raise IndexError <->
   (index < - n \/ n <= index)%Z) /\
  ((- n <= index < n)%Z ->
   exists v, fst (get_value_at_index obj index w) = Ok v).
Proof.
  intros Hseq n.
  assert (Hin : (- n <= index < n)%Z ->
                exists v, fst (get_value_at_index obj index w) = Ok v).
  { intros Hi. destruct (seq_index_in_range items index Hi) as (v & _ & Hv).
    exists v. rewrite get_value_at_index_unfold.
    now rewrite (subscript_sequence obj items index Hseq), Hv. }
  split; [split | exact Hin].
  - intros Hraise.
    destruct (Z.lt_ge_cases index (- n)) as [|Hlo]; [now left |].
    destruct (Z.lt_ge_cases index n) as [Hhi|]; [| now right].
    destruct (Hin (conj Hlo Hhi)) as (v & Hv). congruence.
  - intros Hout. rewrite get_value_at_index_unfold.
    rewrite (subscript_sequence obj items index Hseq).
    now rewrite (seq_index_out_of_range items index Hout).
Qed.

Lemma get_value_at_index_index_error_iff_witness :
  let w := world_of [] "/" in
  sequence_items tuple_result = Some [VObject 1; VObject 2] /\
  (fst (get_value_at_index tuple_result 2 w) = Raise IndexError <->
   (2 < - 2 \/ 2 <= 2)%Z) /\
  ((- 2 <= 2 < 2)%Z ->
   exists v, fst (get_value_at_index tuple_result 2 w) = Ok v).
Proof.
  intros w. split; [reflexivity |].
  apply (get_value_at_index_index_error_iff
           tuple_result [VObject 1; VObject 2] 2 w).
  reflexivity.
Defined.

(** X8. A dictionary is never indexed by position: when it has neither the
    integer [index] nor ["result"] among its keys, whatever its items, the
    call raises [KeyError] for the key ["result"], not for the index,
    after the two lookups. *)
Theorem get_value_at_index_dict_positions_unused
        (items : list (key * value)) (index : Z) (w : world) :
  dict_get items (KInt index) = None ->
  dict_get items (KStr "result") = None ->
  get_value_at_index (VDict items) index w
  = (Raise (KeyError (KStr "result")),
     log_all [EvGetitem (VDict items) (KInt index);
              EvGetitem (VDict items) (KStr "result")] w).
Proof.
  intros Hi Hr. rewrite get_value_at_index_unfold. simpl.
  now rewrite Hi, Hr.
Qed.

Lemma get_value_at_index_dict_positions_unused_witness :
  let w := world_of [] "/" in
  let items := [(KStr "results", tuple_result); (KStr "ui", VDict [])] in
  dict_get items (KInt 0) = None /\
  dict_get items (KStr "result") = None /\
  get_value_at_index (VDict items) 0 w
  = (Raise (KeyError (KStr "result")),
     log_all [EvGetitem (VDict items) (KInt 0);
              EvGetitem (VDict items) (KStr "result")] w).
Proof.
  intros w items. split; [reflexivity |]. split; [reflexivity |].
  apply (get_value_at_index_dict_positions_unused items 0 w); reflexivity.
Defined.

(** X9. Wrapping a sequence under the key ["result"] of a dictionary that
    has no integer key [index] changes nothing for the caller: the call
    on the dictionary returns or raises what the call on the sequence
    does. *)
Theorem get_value_at_index_unwraps_result
        (items : list (key * value)) (result : value) (elems : list value)
        (index : Z) (w w' : world) :
  dict_get items (KInt index) = None ->
  dict_get items (KStr "result") = Some result ->
  sequence_items result = Some elems ->
  fst (get_value_at_index (VDict items) index w)
  = fst (get_value_at_index result index w').
Proof.
  intros Hi Hr Hseq. rewrite !get_value_at_index_unfold. simpl.
  rewrite Hi, Hr. simpl.
  rewrite (subscript_sequence result elems index Hseq).
  now destruct (seq_index elems index).
Qed.

Lemma get_value_at_index_unwraps_result_witness :
  let w := world_of [] "/" in
  let items := [(KStr "ui", VDict []); (KStr "result", tuple_result)] in
  dict_get items (KInt 1) = None /\
  dict_get items (KStr "result") = Some tuple_result /\
  sequence_items tuple_result = Some [VObject 1; VObject 2] /\
  fst (get_value_at_index (VDict items) 1 w)
  = fst (get_value_at_index tuple_result 1 w).
Proof.
  intros w items. split; [reflexivity |]. split; [reflexivity |].
  split; [reflexivity |].
  apply (get_value_at_index_unwraps_result
           items tuple_result [VObject 1; VObject 2] 1 w w); reflexivity.
Defined.

End ExtractionEdges.

(** ** Start-up: what the two functions do when the search succeeds or
    fails *)

Module StartupRuns.
Import PyStr PosixPath Py Script Observe Worlds WorldOps Installation.
Import LogFacts AncestorFacts FindPathFacts FindPathResults FindPathFrame.

Lemma w_sys_path_log_all (evs : list event) (w : world) :
  w_sys_path (log_all evs w) = w_sys_path w.
Proof. apply same_environment_log_all. Qed.

Lemma w_isdir_log_all (evs : list event) (w : world) :
  w_isdir (log_all evs w) = w_isdir w.
Proof. apply same_environment_log_all. Qed.

Lemma w_importable_log_all (evs : list event) (w : world) :
  w_importable (log_all evs w) = w_importable w.
Proof. apply same_environment_log_all. Qed.

Lemma start_of_cwd (w : world) (cwd : string) :
  w_getcwd w = inr cwd -> start_of None w = Some cwd.
Proof. unfold start_of. now intros ->. Qed.

Lemma find_path_cwd_found (w : world) (name cwd : string) (k : nat) :
  w_getcwd w = inr cwd ->
  present_at w name cwd k ->
  (forall j, j < k -> absent_at w name cwd j) ->
  find_path name None w
  = (Ok (Some (join (ancestor k cwd) name)),
     log_all (search_events name cwd k) w).
Proof.
  intros Hcwd Hp Habs.
  rewrite (find_path_start name None cwd w (start_of_cwd w cwd Hcwd)).
  apply (find_path_at_found k name cwd w Habs Hp).
Qed.

Lemma printed_search_events (name cwd : string) (k : nat) :
  printed (search_events name cwd k)
  = [(name ++ " found: " ++ join (ancestor k cwd) name)%string].
Proof.
  unfold search_events. now rewrite printed_app, printed_map_listdir.
Qed.

Lemma count_search_events (name cwd : string) (k : nat) :
  count_listdir (search_events name cwd k) = S k.
Proof.
  unfold search_events.
  rewrite count_listdir_app, count_listdir_map, chain_length.
  unfold count_listdir. simpl. lia.
Qed.

(** The run of [add_comfyui_directory_to_sys_path] that finds [ComfyUI]. *)
Lemma add_comfyui_found_run (w : world) (cwd : string) (k : nat) :
  w_getcwd w = inr cwd ->
  present_at w "ComfyUI" cwd k ->
  (forall j, j < k -> absent_at w "ComfyUI" cwd j) ->
  let p := join (ancestor k cwd) "ComfyUI" in
  let w1 := log_all (search_events "ComfyUI" cwd k) w in
  add_comfyui_directory_to_sys_path w
  = (Ok tt,
     if w_isdir w p then log (EvPrint (added_line p)) (appended p w1)
     else w1).
Proof.
  intros Hcwd Hp Habs p w1.
  unfold add_comfyui_directory_to_sys_path, bind at 1.
  rewrite (find_path_cwd_found w "ComfyUI" cwd k Hcwd Hp Habs).
  fold p. fold w1. unfold bind, isdir. unfold w1 at 1.
  rewrite w_isdir_log_all. destruct (w_isdir w p); reflexivity.
Qed.

(** X10. When [ComfyUI] is found in the [k]-th ancestor of the working
    directory, [add_comfyui_directory_to_sys_path] returns normally after
    [k + 1] listings.  If the found path is a directory it is appended at
    the end of [sys.path], whose former entries stay in place, and two
    lines are printed; if it is not a directory, [sys.path] is unchanged
    and only the line of the search is printed. *)
Theorem add_comfyui_found
        (w : world) (cwd : string) (k : nat) :
  w_getcwd w = inr cwd ->
  present_at w "ComfyUI" cwd k ->
  (forall j, j < k -> absent_at w "ComfyUI" cwd j) ->
  let p := join (ancestor k cwd) "ComfyUI" in
  exists w' evs,
    add_comfyui_directory_to_sys_path w = (Ok tt, w') /\
    w_sys_path w' = (if w_isdir w p then w_sys_path w ++ [p]
                     else w_sys_path w) /\
    performed w w' evs /\
    count_listdir evs = S k /\
    printed evs = ("ComfyUI found: " ++ p)%string ::
                  (if w_isdir w p then [added_line p] else []).
Proof.
  intros Hcwd Hp Habs p.
  rewrite (add_comfyui_found_run w cwd k Hcwd Hp Habs). fold p.
  set (search := search_events "ComfyUI" cwd k).
  pose proof (printed_search_events "ComfyUI" cwd k) as Hprint.
  pose proof (count_search_events "ComfyUI" cwd k) as Hcount.
  fold search in Hprint, Hcount. fold p in Hprint.
  destruct (w_isdir w p).
  - exists (log (EvPrint (added_line p)) (appended p (log_all search w))),
           (search ++ [EvPrint (added_line p)]).
    split; [reflexivity |]. split.
    { unfold appended, sys_path_append, log. cbn [w_sys_path snd].
      now rewrite w_sys_path_log_all. } split.
    { unfold performed, appended, sys_path_append, log. cbn [w_log snd].
      rewrite w_log_log_all. now rewrite app_assoc. }
    split.
    { rewrite count_listdir_app, Hcount. unfold count_listdir. simpl. lia. }
    rewrite printed_app, Hprint. reflexivity.
  - exists (log_all search w), search.
    split; [reflexivity |]. split; [apply w_sys_path_log_all |].
    split; [apply performed_log_all |]. split; assumption.
Qed.

Lemma add_comfyui_found_witness :
  let w := world_comfy tree_comfy in
  w_getcwd w = inr "/home/work"%string /\
  present_at w "ComfyUI" "/home/work" 1 /\
  exists w' evs,
    add_comfyui_directory_to_sys_path w = (Ok tt, w') /\
    w_sys_path w' = (if w_isdir w (join (ancestor 1 "/home/work") "ComfyUI")
                     then w_sys_path w ++
                          [join (ancestor 1 "/home/work") "ComfyUI"]
                     else w_sys_path w) /\
    performed w w' evs /\
    count_listdir evs = 2 /\
    printed evs
    = ("ComfyUI found: " ++ join (ancestor 1 "/home/work") "ComfyUI")%string ::
      (if w_isdir w (join (ancestor 1 "/home/work") "ComfyUI")
       then [added_line (join (ancestor 1 "/home/work") "ComfyUI")] else []).
Proof.
  intros w.
  assert (Hp : present_at w "ComfyUI" "/home/work" 1).
  { exists ["ComfyUI"; "work"]%string. split; reflexivity. }
  split; [reflexivity |]. split; [exact Hp |].
  apply (add_comfyui_found w "/home/work" 1 eq_refl Hp).
  intros j Hj. assert (j = 0) as -> by lia. exists []. split; reflexivity.
Defined.

Section Loaders.

Variable main_load utils_load : string -> M unit.

(** X11. A directory that cannot be listed on the way up from the working
    directory ends the start-up at the first search: the [OSError] of
    [os.listdir] leaves [add_comfyui_directory_to_sys_path] and the module
    body, before any import is tried, with [sys.path] unchanged and nothing
    printed. *)
Theorem startup_fails_on_unlistable_directory
        (w : world) (cwd : string) (k : nat) (err : os_error) :
  w_getcwd w = inr cwd ->
  (forall j, j < k -> absent_at w "ComfyUI" cwd j) ->
  w_listdir w (ancestor k cwd) = inl err ->
  let w' := log_all (map EvListdir (chain (S k) cwd)) w in
  add_comfyui_directory_to_sys_path w
  = (Raise (OSError err (ancestor k cwd)), w') /\
  script_prelude main_load utils_load w
  = (Raise (OSError err (ancestor k cwd)), w') /\
  w_sys_path w' = w_sys_path w /\
  printed (map EvListdir (chain (S k) cwd)) = [].
Proof.
  intros Hcwd Habs Hl w'.
  assert (Hrun : add_comfyui_directory_to_sys_path w
                 = (Raise (OSError err (ancestor k cwd)), w')).
  { unfold add_comfyui_directory_to_sys_path, bind.
    rewrite (find_path_start "ComfyUI" None cwd w (start_of_cwd w cwd Hcwd)).
    now rewrite (find_path_at_raises k "ComfyUI" cwd w err Habs Hl). }
  split; [exact Hrun |]. split.
  - unfold script_prelude, bind at 1. now rewrite Hrun.
  - split; [apply w_sys_path_log_all | apply printed_map_listdir].
Qed.

(** X12. When [extra_model_paths.yaml] is found, the last thing
    [add_extra_model_paths] does is to call [load_extra_path_config] with
    the found path, and the outcome of that call is its own.  The function
    of [main] is used when [main] can be imported; only otherwise, after a
    printed warning, the one of [utils.extra_config]. *)
Theorem add_extra_model_paths_found
        (w : world) (cwd : string) (k : nat) :
  w_getcwd w = inr cwd ->
  present_at w "extra_model_paths.yaml" cwd k ->
  (forall j, j < k -> absent_at w "extra_model_paths.yaml" cwd j) ->
  let p := join (ancestor k cwd) "extra_model_paths.yaml" in
  let search := search_events "extra_model_paths.yaml" cwd k in
  (w_importable w (w_sys_path w) "main" = true ->
   add_extra_model_paths main_load utils_load w
   = main_load p (log_all search w)) /\
  (w_importable w (w_sys_path w) "main" = false ->
   w_importable w (w_sys_path w) "utils.extra_config" = true ->
   add_extra_model_paths main_load utils_load w
   = utils_load p (log_all (EvPrint import_warning :: search) w)).
Proof.
  intros Hcwd Hp Habs p search. split.
  - intros Hmain.
    unfold add_extra_model_paths, bind at 1, try_except, bind at 1,
      import_module, ret.
    rewrite Hmain. unfold bind.
    now rewrite (find_path_cwd_found w _ cwd k Hcwd Hp Habs).
  - intros Hmain Hutils.
    set (w1 := log (EvPrint import_warning) w).
    assert (Habs1 : forall j, j < k ->
                              absent_at w1 "extra_model_paths.yaml" cwd j)
      by (intros j Hj; apply (absent_at_ext w w1); auto).
    assert (Hp1 : present_at w1 "extra_model_paths.yaml" cwd k) by exact Hp.
    unfold add_extra_model_paths, bind at 1, try_except, bind at 1,
      import_module, ret.
    rewrite Hmain. cbn [is_ImportError]. unfold bind at 1, print.
    fold import_warning. fold w1. unfold bind at 1.
    change (w_importable w1 (w_sys_path w1))
      with (w_importable w (w_sys_path w)).
    rewrite Hutils. unfold bind.
    now rewrite (find_path_cwd_found w1 _ cwd k Hcwd Hp1 Habs1).
Qed.

(** X13. When [load_extra_path_config] can be imported neither from
    [main] nor from [utils.extra_config], [add_extra_model_paths] prints
    its warning and raises the [ImportError] of the second import: no
    directory is searched and no configuration is loaded. *)
Theorem add_extra_model_paths_import_error (w : world) :
  w_importable w (w_sys_path w) "main" = false ->
  w_importable w (w_sys_path w) "utils.extra_config" = false ->
  add_extra_model_paths main_load utils_load w
  = (Raise (ImportError "utils.extra_config"),
     log (EvPrint import_warning) w).
Proof.
  intros Hmain Hutils.
  unfold add_extra_model_paths, bind at 1, try_except, bind at 1,
    import_module, ret.
  rewrite Hmain. cbn [is_ImportError]. unfold bind at 1, print.
  fold import_warning. unfold bind at 1.
  change (w_importable (log (EvPrint import_warning) w)
                       (w_sys_path (log (EvPrint import_warning) w)))
    with (w_importable w (w_sys_path w)).
  now rewrite Hutils.
Qed.

(** A search from the working directory that finds nothing, in a world
    with the child lists and the working directory of [w]. *)
Lemma find_path_not_found_in (w w1 : world) (name cwd : string) :
  (forall q, w_listdir w q = w_listdir w1 q) ->
  w_getcwd w1 = inr cwd ->
  (forall k, absent_at w name cwd k) ->
  exists dirs,
    find_path name None w1 = (Ok None, log_all (map EvListdir dirs) w1).
Proof.
  intros Hl Hcwd Habs.
  rewrite (find_path_start name None cwd w1 (start_of_cwd w1 cwd Hcwd)).
  apply find_path_at_not_found.
  intros k. apply (absent_at_ext w w1); auto.
Qed.

(** X14. In an installation where [ComfyUI] is a directory found on the way
    up, [main] and [nodes] can be imported once that directory is on
    [sys.path], and there is no [extra_model_paths.yaml], the start-up of
    the script completes: the import in [add_extra_model_paths] sees the
    entry that [add_comfyui_directory_to_sys_path] has just appended, no
    import warning is printed, and the three lines printed are the found
    path, the added entry and the missing configuration file. *)
Theorem script_prelude_standard_installation
        (w : world) (cwd : string) (k : nat) :
  w_getcwd w = inr cwd ->
  present_at w "ComfyUI" cwd k ->
  (forall j, j < k -> absent_at w "ComfyUI" cwd j) ->
  let comfy := join (ancestor k cwd) "ComfyUI" in
  w_isdir w comfy = true ->
  w_importable w (w_sys_path w ++ [comfy]) "main" = true ->
  w_importable w (w_sys_path w ++ [comfy]) "nodes" = true ->
  (forall j, absent_at w "extra_model_paths.yaml" cwd j) ->
  exists w' evs,
    script_prelude main_load utils_load w = (Ok tt, w') /\
    w_sys_path w' = w_sys_path w ++ [comfy] /\
    performed w w' evs /\
    printed evs = [("ComfyUI found: " ++ comfy)%string;
                   added_line comfy; config_missing].
Proof.
  intros Hcwd Hp Habs comfy Hdir Hmain Hnodes Hcfg.
  set (search := search_events "ComfyUI" cwd k).
  set (w1 := log (EvPrint (added_line comfy))
                 (appended comfy (log_all search w))).
  assert (Hrun1 : add_comfyui_directory_to_sys_path w = (Ok tt, w1)).
  { rewrite (add_comfyui_found_run w cwd k Hcwd Hp Habs).
    fold comfy. now rewrite Hdir. }
  assert (Hl1 : forall q, w_listdir w q = w_listdir w1 q).
  { intros q. unfold w1, appended, sys_path_append, log. cbn [w_listdir snd].
    now rewrite w_listdir_log_all. }
  assert (Hcwd1 : w_getcwd w1 = inr cwd).
  { unfold w1, appended, sys_path_append, log. cbn [w_getcwd snd].
    destruct (same_environment_log_all search w) as (_ & _ & -> & _).
    exact Hcwd. }
  assert (Hsp1 : w_sys_path w1 = w_sys_path w ++ [comfy]).
  { unfold w1, appended, sys_path_append, log. cbn [w_sys_path snd].
    now rewrite w_sys_path_log_all. }
  assert (Himp1 : w_importable w1 = w_importable w).
  { unfold w1, appended, sys_path_append, log. cbn [w_importable snd].
    apply w_importable_log_all. }
  assert (Hlog1 : w_log w1 = w_log w ++ search ++ [EvPrint (added_line comfy)]).
  { unfold w1, appended, sys_path_append, log. cbn [w_log snd].
    rewrite w_log_log_all. now rewrite app_assoc. }
  destruct (find_path_not_found_in w w1 "extra_model_paths.yaml" cwd
              Hl1 Hcwd1 Hcfg) as (dirs & Hfind).
  set (w2 := log (EvPrint config_missing) (log_all (map EvListdir dirs) w1)).
  assert (Hrun2 : add_extra_model_paths main_load utils_load w1 = (Ok tt, w2)).
  { unfold add_extra_model_paths, bind at 1, try_except, bind at 1,
      import_module, ret.
    rewrite Himp1, Hsp1, Hmain. unfold bind. now rewrite Hfind. }
  assert (Hsp2 : w_sys_path w2 = w_sys_path w ++ [comfy]).
  { unfold w2, log. cbn [w_sys_path]. now rewrite w_sys_path_log_all. }
  assert (Himp2 : w_importable w2 = w_importable w).
  { unfold w2, log. cbn [w_importable].
    now rewrite w_importable_log_all. }
  exists w2, (search ++ [EvPrint (added_line comfy)] ++
              map EvListdir dirs ++ [EvPrint config_missing]).
  split; [| split; [exact Hsp2 | split]].
  - unfold script_prelude, bind at 1. rewrite Hrun1.
    unfold bind at 1. rewrite Hrun2. unfold import_module.
    now rewrite Himp2, Hsp2, Hnodes.
  - unfold performed, w2, log. cbn [w_log].
    rewrite w_log_log_all, Hlog1. now rewrite <- !app_assoc.
  - rewrite !printed_app, printed_map_listdir.
    unfold search. rewrite printed_search_events. reflexivity.
Qed.

End Loaders.

Lemma startup_fails_on_unlistable_directory_witness :
  let w := world_of [("/home/work"%string, [])] "/home/work" in
  let load := recording_loader "loaded " in
  w_getcwd w = inr "/home/work"%string /\
  w_listdir w (ancestor 1 "/home/work") = inl ENOENT /\
  add_comfyui_directory_to_sys_path w
  = (Raise (OSError ENOENT (ancestor 1 "/home/work")),
     log_all (map EvListdir (chain 2 "/home/work")) w) /\
  script_prelude load load w
  = (Raise (OSError ENOENT (ancestor 1 "/home/work")),
     log_all (map EvListdir (chain 2 "/home/work")) w) /\
  w_sys_path (log_all (map EvListdir (chain 2 "/home/work")) w)
  = w_sys_path w /\
  printed (map EvListdir (chain 2 "/home/work")) = [].
Proof.
  intros w load. split; [reflexivity |]. split; [reflexivity |].
  apply (startup_fails_on_unlistable_directory load load w "/home/work" 1
                                               ENOENT eq_refl).
  - intros j Hj. assert (j = 0) as -> by lia. exists []. split; reflexivity.
  - reflexivity.
Defined.

Lemma config_present_comfy (w : world) :
  w_listdir w = lookup_dir tree_comfy_config ->
  present_at w "extra_model_paths.yaml" "/home/work" 1 /\
  forall j, j < 1 -> absent_at w "extra_model_paths.yaml" "/home/work" j.
Proof.
  intros Hl. split.
  - exists ["ComfyUI"; "extra_model_paths.yaml"; "work"]%string.
    rewrite Hl. split; reflexivity.
  - intros j Hj. assert (j = 0) as -> by lia. exists [].
    rewrite Hl. split; reflexivity.
Qed.

Lemma add_extra_model_paths_found_witness :
  let w1 := world_importing ["main"%string] tree_comfy_config "/home/work" in
  let w2 := world_importing ["utils.extra_config"%string] tree_comfy_config
                            "/home/work" in
  let lm := recording_loader "main loads " in
  let lu := recording_loader "utils loads " in
  printed (w_log (snd (add_extra_model_paths lm lu w1)))
  = ["extra_model_paths.yaml found: /home/extra_model_paths.yaml";
     "main loads /home/extra_model_paths.yaml"]%string /\
  printed (w_log (snd (add_extra_model_paths lm lu w2)))
  = [import_warning;
     "extra_model_paths.yaml found: /home/extra_model_paths.yaml";
     "utils loads /home/extra_model_paths.yaml"]%string.
Proof.
  intros w1 w2 lm lu.
  destruct (config_present_comfy w1 eq_refl) as [Hp1 Ha1].
  destruct (config_present_comfy w2 eq_refl) as [Hp2 Ha2].
  split.
  - rewrite (proj1 (add_extra_model_paths_found lm lu w1 "/home/work" 1
                      eq_refl Hp1 Ha1) eq_refl).
    reflexivity.
  - rewrite (proj2 (add_extra_model_paths_found lm lu w2 "/home/work" 1
                      eq_refl Hp2 Ha2) eq_refl eq_refl).
    reflexivity.
Defined.

Lemma add_extra_model_paths_import_error_witness :
  let w := world_of tree_comfy_config "/home/work" in
  let load := recording_loader "loaded " in
  w_importable w (w_sys_path w) "main" = false /\
  w_importable w (w_sys_path w) "utils.extra_config" = false /\
  add_extra_model_paths load load w
  = (Raise (ImportError "utils.extra_config"),
     log (EvPrint import_warning) w).
Proof.
  intros w load. split; [reflexivity |]. split; [reflexivity |].
  apply (add_extra_model_paths_import_error load load w); reflexivity.
Defined.

Lemma script_prelude_standard_installation_witness :
  let w := world_comfy tree_comfy in
  let load := recording_loader "loaded " in
  w_getcwd w = inr "/home/work"%string /\
  w_isdir w (join (ancestor 1 "/home/work") "ComfyUI") = true /\
  w_importable w (w_sys_path w) "main" = false /\
  exists w' evs,
    script_prelude load load w = (Ok tt, w') /\
    w_sys_path w' = w_sys_path w ++ [join (ancestor 1 "/home/work") "ComfyUI"] /\
    performed w w' evs /\
    printed evs
    = [("ComfyUI found: " ++ join (ancestor 1 "/home/work") "ComfyUI")%string;
       added_line (join (ancestor 1 "/home/work") "ComfyUI");
       config_missing].
Proof.
  intros w load. split; [reflexivity |]. split; [reflexivity |].
  split; [reflexivity |].
  apply (script_prelude_standard_installation load load w "/home/work" 1
                                              eq_refl).
  - exists ["ComfyUI"; "work"]%string. split; reflexivity.
  - intros j Hj. assert (j = 0) as -> by lia. exists []. split; reflexivity.
  - reflexivity.
  - reflexivity.
  - reflexivity.
  - intros [|[|[|j]]].
    + exists []. split; reflexivity.
    + exists ["ComfyUI"; "work"]%string. split; reflexivity.
    + exists ["home"]%string. split; reflexivity.
    + unfold absent_at. change (S (S (S j))) with (3 + j).
      rewrite (ancestor_fixed 2 (3 + j) "/home/work" eq_refl); [| lia].
      exists ["home"]%string. split; reflexivity.
Defined.

End StartupRuns.
